(** * Camera path planner of [with-animation.py]

    A shallow embedding of the animation-timing code of
    [src/with-animation.py]: the easing curve [ease_in_out], the bounds
    resolution [get_target_bounds], the per-frame camera shake of
    [render_frame] and the animation sequence of [create_video].

    Numbers.  The script computes with Python floats.  Finite floats are
    modelled here by exact rationals ([Q]); equality of numbers is [Qeq]
    ([==]) and equality of viewports is the pointwise [vp_eq].  Rounding and
    infinities are outside the model: every statement below is about the
    exact arithmetic the script approximates.  NaN is modelled ([float]),
    because the script meets it: the bounds of an empty selection are four
    NaN, every sum, difference, product and quotient with a NaN is NaN,
    every comparison with a NaN is false, and the plotting library refuses
    a NaN axis limit with a [ValueError] that nothing in the script catches.

    Collaborators.  The plotting, the files and the encoder are not
    modelled.  A rendered frame is recorded as the axis limits, the
    highlight list and the caption that [render_frame] hands to the
    plotting library, tagged with the frame counter used in the file name. *)

From Stdlib Require Import QArith Qminmax Qabs Lqa Lia List String Bool Arith Sorted.
Import ListNotations.

Open Scope Q_scope.

(** ** Configuration constants (lines 29-35) *)

Definition ZOOM_FRAMES : nat := 25.
Definition HOLD_FRAMES : nat := 45.
Definition WORLD_BOUNDS : list Q := [-170; 170; -55; 85].

Definition DATA_COUNTRIES : list string :=
  ["United States of America"; "Russia"; "Brazil"; "Australia"; "India"]%string.

(** ** Viewports

    A viewport is the Python list [[min-x, max-x, min-y, max-y]].  The
    script only ever indexes lists of four elements ([WORLD_BOUNDS] and the
    list built at line 67), so the out-of-range default of [nth] is never
    reached on a list the program builds (see [get_target_bounds_length]). *)

Definition bounds := list Q.

Definition at_ (b : bounds) (j : nat) : Q := nth j b 0.

Definition vp_eq (a b : bounds) : Prop := Forall2 Qeq a b.

Definition width (b : bounds) : Q := at_ b 1 - at_ b 0.
Definition height (b : bounds) : Q := at_ b 3 - at_ b 2.

(** [max > min] on both axes. *)
Definition proper (b : bounds) : Prop := at_ b 0 < at_ b 1 /\ at_ b 2 < at_ b 3.

(** [inner] lies inside [outer]. *)
Definition contains (outer inner : bounds) : Prop :=
  at_ outer 0 <= at_ inner 0 /\ at_ inner 1 <= at_ outer 1 /\
  at_ outer 2 <= at_ inner 2 /\ at_ inner 3 <= at_ outer 3.

(** ** Floats that may be NaN *)

Inductive float : Type :=
| Fin (q : Q)
| NaN.

Definition fadd (x y : float) : float :=
  match x, y with Fin a, Fin b => Fin (a + b) | _, _ => NaN end.

Definition fsub (x y : float) : float :=
  match x, y with Fin a, Fin b => Fin (a - b) | _, _ => NaN end.

Definition fmul (x y : float) : float :=
  match x, y with Fin a, Fin b => Fin (a * b) | _, _ => NaN end.

(** The script divides by 2, by the ratio 9/16 and by a height that is
    positive for a positive padding; for a zero divisor the rational
    quotient is 0 where the float quotient is infinite or NaN. *)
Definition fdiv (x y : float) : float :=
  match x, y with Fin a, Fin b => Fin (a / b) | _, _ => NaN end.

(** [x > y]: false when either side is NaN. *)
Definition fgt (x y : float) : bool :=
  match x, y with Fin a, Fin b => negb (Qle_bool a b) | _, _ => false end.

(** The list of four floats that [get_target_bounds] returns and that
    [current_bounds] holds. *)
Definition view := list float.

Definition floats (b : bounds) : view := map Fin b.

Definition nan_view : view := [NaN; NaN; NaN; NaN].

Definition fat (v : view) (j : nat) : float := nth j v (Fin 0).

(** The four scalars of a view without NaN. *)
Definition finite_view (v : view) : option bounds :=
  match v with
  | [Fin a; Fin b; Fin c; Fin d] => Some [a; b; c; d]
  | _ => None
  end.

(** ** Easing (lines 37-39) *)

Definition ease_in_out (t : Q) : Q := t * t * (3 - 2 * t).

(** ** The lookup source

    [gdf[gdf.name == country_name].total_bounds] belongs to the geometry
    library.  A data frame is modelled as its rows, each with a name and
    the bounding box of its geometry; the selection keeps the rows with the
    given name and [total_bounds] is the box around the selected rows, in
    the library's order (minx, miny, maxx, maxy).  For an empty selection
    the library returns four NaN and raises nothing, so the unpacking of
    line 48 succeeds and the handler of lines 49-50 is not taken. *)

Record row := mkRow {
  name : string;
  geom_minx : Q; geom_miny : Q; geom_maxx : Q; geom_maxy : Q
}.

Definition GeoDataFrame := list row.

Inductive result (A : Type) : Type :=
| Ok (a : A)
| ValueError.
Arguments Ok {A} a.
Arguments ValueError {A}.

Definition select_name (gdf : GeoDataFrame) (country_name : string) : GeoDataFrame :=
  filter (fun r => String.eqb (name r) country_name) gdf.

(** The box around a non-empty selection. *)
Definition union_box (r : row) (rs : GeoDataFrame) : Q * Q * Q * Q :=
  fold_left
    (fun acc r' =>
       let '(minx, miny, maxx, maxy) := acc in
       (Qmin minx (geom_minx r'), Qmin miny (geom_miny r'),
        Qmax maxx (geom_maxx r'), Qmax maxy (geom_maxy r')))
    rs (geom_minx r, geom_miny r, geom_maxx r, geom_maxy r).

Definition total_bounds (rows : GeoDataFrame) : result (float * float * float * float) :=
  match rows with
  | [] => Ok (NaN, NaN, NaN, NaN)
  | r :: rs =>
      let '(minx, miny, maxx, maxy) := union_box r rs in
      Ok (Fin minx, Fin miny, Fin maxx, Fin maxy)
  end.

(** ** Bounds resolution (lines 41-67) *)

Definition target_ratio : Q := 9 / 16.

(** Lines 56-67 on finite numbers: [padded_size], [force_ratio] and [box]
    are what lines 56-58, 60-65 and 67 compute when no NaN is involved
    (see [get_target_bounds_found]). *)

(** Lines 56-58: width and height with padding. *)
Definition padded_size (minx miny maxx maxy pad : Q) : Q * Q :=
  ((maxx - minx) + pad, (maxy - miny) + pad).

(** Lines 60-65: force the 9:16 ratio.  With a positive padding [h] is
    positive; for [h = 0] the rational quotient is 0 where the script's
    float quotient is infinite or NaN. *)
Definition force_ratio (wh : Q * Q) : Q * Q :=
  let (w, h) := wh in
  if negb (Qle_bool (w / h) target_ratio)
  then (w, w / target_ratio)
  else (h * target_ratio, h).

(** Line 67: the box of size [w] x [h] around ([cx], [cy]). *)
Definition box (cx cy : Q) (wh : Q * Q) : bounds :=
  let (w, h) := wh in
  [cx - w / 2; cx + w / 2; cy - h / 2; cy + h / 2].

Definition default_pad : Q := 15.

(** Lines 41-67, line by line in float arithmetic. *)
Definition get_target_bounds (gdf : GeoDataFrame) (country_name : string) (pad : Q) : view :=
  if String.eqb country_name "World" then floats WORLD_BOUNDS
  else
    match total_bounds (select_name gdf country_name) with
    | ValueError => floats WORLD_BOUNDS
    | Ok (minx, miny, maxx, maxy) =>
        let cx := fdiv (fadd minx maxx) (Fin 2) in
        let cy := fdiv (fadd miny maxy) (Fin 2) in
        let w := fadd (fsub maxx minx) (Fin pad) in
        let h := fadd (fsub maxy miny) (Fin pad) in
        let wh := if fgt (fdiv w h) (Fin target_ratio)
                  then (w, fdiv w (Fin target_ratio))
                  else (fmul h (Fin target_ratio), h) in
        [fsub cx (fdiv (fst wh) (Fin 2)); fadd cx (fdiv (fst wh) (Fin 2));
         fsub cy (fdiv (snd wh) (Fin 2)); fadd cy (fdiv (snd wh) (Fin 2))]
    end.

(** The region after padding and before the ratio is forced: the box that
    lines 53-58 describe by its centre and size. *)
Definition padded_region (minx miny maxx maxy pad : Q) : bounds :=
  box ((minx + maxx) / 2) ((miny + maxy) / 2) (padded_size minx miny maxx maxy pad).

(** The raw region of a lookup result, in viewport order. *)
Definition raw_region (minx miny maxx maxy : Q) : bounds := [minx; maxx; miny; maxy].

(** ** Rendered frames

    What [render_frame] hands to the plotting library for one image: the
    number in the file name ([frame_%04d.png]), the two axis limits, the
    highlighted names and the bottom text. *)

Record frame := mkFrame {
  frame_no : nat;
  xlim : list Q;
  ylim : list Q;
  shown : list string;
  caption : string
}.

(** The viewport a frame is drawn with. *)
Definition viewport (f : frame) : bounds := xlim f ++ ylim f.

(** [i / float(n)] for loop counters. *)
Definition Qnat (n : nat) : Q := inject_Z (Z.of_nat n).

(** [for i in range(n): body], threading the state. *)
Definition for_range {S : Type} (n : nat) (body : nat -> S -> S) (s : S) : S :=
  fold_left (fun acc i => body i acc) (seq 0 n) s.

(** Lines 171-174 and 189-192: the list comprehension over [range(4)]. *)
Definition interp_bounds (current_bounds target_bounds : bounds) (t : Q) : bounds :=
  map (fun j => at_ current_bounds j + (at_ target_bounds j - at_ current_bounds j) * t)
      (seq 0 4).

(** The same comprehension when a bound may be NaN. *)
Definition interp_view (current_bounds target_bounds : view) (t : Q) : view :=
  map (fun j => fadd (fat current_bounds j)
                     (fmul (fsub (fat target_bounds j) (fat current_bounds j)) (Fin t)))
      (seq 0 4).

(** [ax.set_xlim([lo, hi])]: the limits when both are numbers, no limits
    ([ValueError]) when one is NaN. *)
Definition set_lim (lo hi : float) : option (list Q) :=
  match lo, hi with Fin a, Fin b => Some [a; b] | _, _ => None end.

Section Planner.

(** The state of Python's [random] module and its [random()]: one draw
    and the next state.  Seeding fixes the initial state. *)
Variable G : Type.
Variable random : G -> Q * G.

(** [random.uniform(a, b)] is [a + (b - a) * random()]. *)
Definition uniform (a b : Q) (g : G) : Q * G :=
  let (r, g') := random g in (a + (b - a) * r, g').

(** What the closure [render_frame] reads and writes: the generator, the
    [nonlocal frame_count] and the images saved so far, oldest first. *)
Record renderer := mkRenderer {
  gen : G;
  frame_count : nat;
  written : list frame
}.

(** Lines 122-156 on a viewport of finite numbers; [try_render_frame]
    below is the same closure on a viewport that may hold NaN. *)
Definition render_frame (b : bounds) (highlights : list string) (text : string)
           (shake_intensity : Q) (st : renderer) : renderer :=
  let (sx, g1) := uniform (- shake_intensity) shake_intensity (gen st) in
  let (sy, g2) := uniform (- shake_intensity) shake_intensity g1 in
  {| gen := g2;
     frame_count := S (frame_count st);
     written := written st ++
       [ {| frame_no := frame_count st;
            xlim := [at_ b 0 + sx; at_ b 1 + sx];
            ylim := [at_ b 2 + sy; at_ b 3 + sy];
            shown := highlights;
            caption := text |} ] |}.

(** A hold loop: lines 161-162, 181-183 and 197-198. *)
Definition hold_phase (m : nat) (b : bounds) (highlights : list string) (text : string)
           (shake_intensity : Q) (st : renderer) : renderer :=
  for_range m (fun _ => render_frame b highlights text shake_intensity) st.

(** A zoom loop: lines 169-175 and 187-193.  [shake_intensity] keeps its
    default 0.0. *)
Definition zoom_phase (n : nat) (current_bounds target_bounds : bounds)
           (highlights : list string) (text : string) (st : renderer) : renderer :=
  for_range n
    (fun i st' =>
       let t := ease_in_out (Qnat i / Qnat n) in
       render_frame (interp_bounds current_bounds target_bounds t) highlights text 0 st')
    st.

(** How a piece of the script ends: normally, or with the [ValueError] of
    [set_xlim] / [set_ylim], which nothing catches; the renderer is then
    left as it was when the error was raised. *)
Inductive outcome (S : Type) : Type :=
| Completed (s : S)
| Raised (st : renderer).
Arguments Completed {S} s.
Arguments Raised {S} st.

Definition and_then {S T : Type} (o : outcome S) (k : S -> outcome T) : outcome T :=
  match o with
  | Completed s => k s
  | Raised st => Raised st
  end.

(** A loop whose body may raise: the first error ends it. *)
Fixpoint try_fold {S A : Type} (step : S -> A -> outcome S) (l : list A) (s : S)
  : outcome S :=
  match l with
  | [] => Completed s
  | a :: rest => and_then (step s a) (try_fold step rest)
  end.

Definition try_range {S : Type} (n : nat) (body : nat -> S -> outcome S) (s : S)
  : outcome S :=
  try_fold (fun acc i => body i acc) (seq 0 n) s.

(** Lines 122-156 on a view that may hold NaN: both offsets are drawn
    (lines 131-132), then line 133 or line 134 raises on a NaN limit,
    before anything is saved or counted. *)
Definition try_render_frame (v : view) (highlights : list string) (text : string)
           (shake_intensity : Q) (st : renderer) : outcome renderer :=
  let (sx, g1) := uniform (- shake_intensity) shake_intensity (gen st) in
  let (sy, g2) := uniform (- shake_intensity) shake_intensity g1 in
  let raised := {| gen := g2; frame_count := frame_count st; written := written st |} in
  match set_lim (fadd (fat v 0) (Fin sx)) (fadd (fat v 1) (Fin sx)) with
  | None => Raised raised
  | Some xl =>
      match set_lim (fadd (fat v 2) (Fin sy)) (fadd (fat v 3) (Fin sy)) with
      | None => Raised raised
      | Some yl =>
          Completed
            {| gen := g2;
               frame_count := S (frame_count st);
               written := written st ++
                 [ {| frame_no := frame_count st;
                      xlim := xl;
                      ylim := yl;
                      shown := highlights;
                      caption := text |} ] |}
      end
  end.

(** The hold loops of lines 161-162, 181-183 and 197-198 as the script
    runs them. *)
Definition try_hold_phase (m : nat) (v : view) (highlights : list string) (text : string)
           (shake_intensity : Q) (st : renderer) : outcome renderer :=
  try_range m (fun _ => try_render_frame v highlights text shake_intensity) st.

(** The zoom loops of lines 169-175 and 187-193 as the script runs them. *)
Definition try_zoom_phase (n : nat) (current_bounds target_bounds : view)
           (highlights : list string) (text : string) (st : renderer) : outcome renderer :=
  try_range n
    (fun i st' =>
       let t := ease_in_out (Qnat i / Qnat n) in
       try_render_frame (interp_view current_bounds target_bounds t) highlights text 0 st')
    st.

(** The locals of [create_video] that the country loop updates. *)
Record camera := mkCamera {
  current_bounds : view;
  current_highlights : list string;
  out : renderer
}.

(** Lines 165-183: one pass of the country loop. *)
Definition country_step (zoom_frames hold_frames : nat) (shake : Q)
           (world : GeoDataFrame) (cam : camera) (country : string) : outcome camera :=
  let target_bounds := get_target_bounds world country default_pad in
  and_then
    (try_zoom_phase zoom_frames (current_bounds cam) target_bounds
                    (current_highlights cam) ("Scanning: " ++ country)%string (out cam))
    (fun st1 =>
       let highlights := current_highlights cam ++ [country] in
       and_then
         (try_hold_phase hold_frames target_bounds highlights
                         ("TARGET LOCKED: " ++ country)%string shake st1)
         (fun st2 =>
            Completed {| current_bounds := target_bounds;
                         current_highlights := highlights;
                         out := st2 |})).

(** Lines 158-198, with the loop counts and the shake intensity that the
    script writes as literals taken as arguments. *)
Definition animation_sequence (intro_frames zoom_frames hold_frames outro_frames : nat)
           (shake : Q) (world : GeoDataFrame) (countries : list string)
           (st : renderer) : outcome renderer :=
  and_then
    (try_hold_phase intro_frames (floats WORLD_BOUNDS) [] "Initiating Scan..." 0 st)
    (fun st1 =>
       and_then
         (try_fold (country_step zoom_frames hold_frames shake world) countries
                   {| current_bounds := floats WORLD_BOUNDS; current_highlights := [];
                      out := st1 |})
         (fun cam2 =>
            let target_bounds := floats WORLD_BOUNDS in
            and_then
              (try_zoom_phase zoom_frames (current_bounds cam2) target_bounds
                              (current_highlights cam2) "Global Analysis Complete" (out cam2))
              (fun st3 =>
                 try_hold_phase outro_frames target_bounds (current_highlights cam2)
                                "The Truth is Out There..." 0 st3))).

(** [create_video] from line 117 on: 30 intro frames, [ZOOM_FRAMES],
    [HOLD_FRAMES], 60 closing frames, shake intensity 0.8, the script's
    country list. *)
Definition create_video (world : GeoDataFrame) (seed : G) : outcome renderer :=
  animation_sequence 30 ZOOM_FRAMES HOLD_FRAMES 60 0.8 world DATA_COUNTRIES
    {| gen := seed; frame_count := 0; written := [] |}.

(** The renderer a piece of the script leaves behind. *)
Definition saved (o : outcome renderer) : renderer :=
  match o with
  | Completed st => st
  | Raised st => st
  end.

(** The first [n] draws of the generator from state [g]. *)
Fixpoint draws (n : nat) (g : G) : list Q :=
  match n with
  | O => []
  | S n' => let (r, g') := random g in r :: draws n' g'
  end.

(** The generator state after [n] draws. *)
Fixpoint after_draws (n : nat) (g : G) : G :=
  match n with
  | O => g
  | S n' => after_draws n' (snd (random g))
  end.

End Planner.

Arguments gen {G} _.
Arguments frame_count {G} _.
Arguments written {G} _.
Arguments mkRenderer {G} _ _ _.
Arguments current_bounds {G} _.
Arguments current_highlights {G} _.
Arguments out {G} _.
Arguments mkCamera {G} _ _ _.
Arguments uniform {G} random a b g.
Arguments render_frame {G} random b highlights text shake_intensity st.
Arguments hold_phase {G} random m b highlights text shake_intensity st.
Arguments zoom_phase {G} random n current_bounds target_bounds highlights text st.
Arguments Completed {G S} s.
Arguments Raised {G S} st.
Arguments and_then {G S T} o k.
Arguments try_fold {G S A} step l s.
Arguments try_range {G S} n body s.
Arguments try_render_frame {G} random v highlights text shake_intensity st.
Arguments try_hold_phase {G} random m v highlights text shake_intensity st.
Arguments try_zoom_phase {G} random n current_bounds target_bounds highlights text st.
Arguments saved {G} o.
Arguments country_step {G} random zoom_frames hold_frames shake world cam country.
Arguments animation_sequence {G} random intro_frames zoom_frames hold_frames outro_frames shake world countries st.
Arguments create_video {G} random world seed.
Arguments draws {G} random n g.
Arguments after_draws {G} random n g.

(** ** Offsets of the camera shake

    Lines 131-134 add [sx] to both x limits and [sy] to both y limits. *)

Definition translate (c : bounds) (dx dy : Q) : bounds :=
  [at_ c 0 + dx; at_ c 1 + dx; at_ c 2 + dy; at_ c 3 + dy].

(** Successive draws taken two at a time. *)
Fixpoint pair_up (l : list Q) : list (Q * Q) :=
  match l with
  | rx :: ry :: rest => (rx, ry) :: pair_up rest
  | _ => []
  end.

(** The offsets ([sx], [sy]) of [m] successive frames rendered with shake
    intensity [s], the generator starting in state [g]: frame [k] uses
    draw [2k] for [sx] and draw [2k+1] for [sy]. *)
Definition shake_offsets {G : Type} (random : G -> Q * G) (m : nat) (s : Q) (g : G)
  : list (Q * Q) :=
  map (fun r => (- s + (s - - s) * fst r, - s + (s - - s) * snd r))
      (pair_up (draws random (2 * m) g)).

(** The frame saved for viewport [b] shaken by offsets [o], numbered [n]. *)
Definition jitter_frame (n : nat) (b : bounds) (highlights : list string) (text : string)
           (o : Q * Q) : frame :=
  {| frame_no := n;
     xlim := [at_ b 0 + fst o; at_ b 1 + fst o];
     ylim := [at_ b 2 + snd o; at_ b 3 + snd o];
     shown := highlights;
     caption := text |}.

(** The frames of a loop whose pass [i] renders [view i]: numbers from
    [n], loop counter from [i], one pair of offsets per pass. *)
Fixpoint loop_frames (view : nat -> bounds) (highlights : list string) (text : string)
         (n i : nat) (offs : list (Q * Q)) : list frame :=
  match offs with
  | [] => []
  | o :: rest =>
      jitter_frame n (view i) highlights text o
      :: loop_frames view highlights text (S n) (S i) rest
  end.

(** The offsets read back from a frame drawn around viewport [c]. *)
Definition observed_offset (c : bounds) (f : frame) : Q * Q :=
  (at_ (xlim f) 0 - at_ c 0, at_ (ylim f) 0 - at_ c 2).

Definition offset_eq (o1 o2 : Q * Q) : Prop := fst o1 == fst o2 /\ snd o1 == snd o2.

Definition within (s : Q) (d : Q) : Prop := - s <= d /\ d <= s.

(** [outer] extends [inner] by exactly [p] on each of the four sides. *)
Definition margin_exactly (outer inner : bounds) (p : Q) : Prop :=
  at_ inner 0 - at_ outer 0 == p /\ at_ outer 1 - at_ inner 1 == p /\
  at_ inner 2 - at_ outer 2 == p /\ at_ outer 3 - at_ inner 3 == p.

(** [outer] extends [inner] by more than nothing on each of the four sides. *)
Definition strictly_contains (outer inner : bounds) : Prop :=
  at_ outer 0 < at_ inner 0 /\ at_ inner 1 < at_ outer 1 /\
  at_ outer 2 < at_ inner 2 /\ at_ inner 3 < at_ outer 3.

(** ** The sequencing contract, in the spec's words

    A cue is what the contract promises for one frame: the viewport the
    camera is nominally on, the shake intensity, the highlighted names and
    the caption. *)

Record cue := mkCue {
  cue_view : bounds;
  cue_shake : Q;
  cue_shown : list string;
  cue_caption : string
}.

(** The viewport at progress [t] of the way from [a] to [b]: each scalar
    moves linearly from its start value to its end value. *)
Definition lerp (a b : bounds) (t : Q) : bounds :=
  [at_ a 0 + (at_ b 0 - at_ a 0) * t; at_ a 1 + (at_ b 1 - at_ a 1) * t;
   at_ a 2 + (at_ b 2 - at_ a 2) * t; at_ a 3 + (at_ b 3 - at_ a 3) * t].

(** A zoom phase of [n] frames from [a] to [b]: frame [i] is at
    [ease(i/n)] of the way, without shake. *)
Definition zoom_cues (n : nat) (a b : bounds) (highlights : list string) (text : string)
  : list cue :=
  map (fun i => mkCue (lerp a b (ease_in_out (Qnat i / Qnat n))) 0 highlights text)
      (seq 0 n).

(** A hold phase of [m] frames on [c] with shake intensity [s]. *)
Definition hold_cues (m : nat) (c : bounds) (s : Q) (highlights : list string) (text : string)
  : list cue :=
  repeat (mkCue c s highlights text) m.

(** For each target in input order: zoom from the current viewport to the
    target's region, then hold on that region; the region becomes the
    current viewport of the next target. *)
Fixpoint target_cues (zoom hold : nat) (s : Q) (current : bounds) (highlights : list string)
         (targets : list (string * bounds)) : list cue :=
  match targets with
  | [] => []
  | (country, region) :: rest =>
      zoom_cues zoom current region highlights ("Scanning: " ++ country)%string
      ++ hold_cues hold region s (highlights ++ [country]) ("TARGET LOCKED: " ++ country)%string
      ++ target_cues zoom hold s region (highlights ++ [country]) rest
  end.

Definition timeline (intro zoom hold outro : nat) (s : Q) (targets : list (string * bounds))
  : list cue :=
  hold_cues intro WORLD_BOUNDS 0 [] "Initiating Scan..."
  ++ target_cues zoom hold s WORLD_BOUNDS [] targets
  ++ zoom_cues zoom (last (map snd targets) WORLD_BOUNDS) WORLD_BOUNDS
               (map fst targets) "Global Analysis Complete"
  ++ hold_cues outro WORLD_BOUNDS 0 (map fst targets) "The Truth is Out There...".

(** Frame [f], the [n]-th of the video, realises cue [c]: its viewport is
    the cue's viewport moved by offsets that [ok] admits for the cue's
    shake intensity. *)
Definition shows (ok : Q -> Q -> Prop) (n : nat) (f : frame) (c : cue) : Prop :=
  frame_no f = n /\ shown f = cue_shown c /\ caption f = cue_caption c /\
  exists dx dy, ok (cue_shake c) dx /\ ok (cue_shake c) dy /\
                vp_eq (viewport f) (translate (cue_view c) dx dy).

(** Frames [fs], numbered from [n], realise the cues [cs] one for one and
    in order. *)
Inductive plays (ok : Q -> Q -> Prop) : nat -> list frame -> list cue -> Prop :=
| plays_nil : forall n, plays ok n [] []
| plays_cons : forall n f c fs cs,
    shows ok n f c -> plays ok (S n) fs cs -> plays ok n (f :: fs) (c :: cs).

(** Renderer state [st'] continues [st] with frames that realise [cs]. *)
Definition extends_by {G : Type} (ok : Q -> Q -> Prop) (st st' : renderer G)
           (cs : list cue) : Prop :=
  exists fs, written st' = written st ++ fs /\
             plays ok (frame_count st) fs cs /\
             frame_count st' = (frame_count st + List.length cs)%nat.

(** Every offset the generator can yield for intensity [s] is admitted by
    [ok]. *)
Definition admits {G : Type} (random : G -> Q * G) (ok : Q -> Q -> Prop) (s : Q) : Prop :=
  forall g, ok s (- s + (s - - s) * fst (random g)).

(** The regions the targets resolve to, with the script's default
    padding, when none of them is NaN. *)
Fixpoint resolve (world : GeoDataFrame) (countries : list string)
  : option (list (string * bounds)) :=
  match countries with
  | [] => Some []
  | country :: rest =>
      match finite_view (get_target_bounds world country default_pad), resolve world rest with
      | Some region, Some targets => Some ((country, region) :: targets)
      | _, _ => None
      end
  end.

(** [l1] is an initial segment of [l2]. *)
Definition initial_segment {A : Type} (l1 l2 : list A) : Prop := exists rest, l2 = l1 ++ rest.

(** The renderer a piece of the script leaves behind, [get] reading it
    off the locals when the piece completed. *)
Definition final {G S : Type} (get : S -> renderer G) (o : outcome G S) : renderer G :=
  match o with
  | Completed s => get s
  | Raised st => st
  end.

(** From state [st] the piece [o] saves frames whose highlight lists are
    an initial segment of [l], and all of [l] if it completes. *)
Definition shown_trace {G S : Type} (get : S -> renderer G) (st : renderer G)
           (o : outcome G S) (l : list (list string)) : Prop :=
  exists fs, written (final get o) = written st ++ fs /\
             initial_segment (map shown fs) l /\
             (forall s, o = Completed s -> map shown fs = l).

(** The highlight lists of the frames of the country loop, started with
    highlights [hl]. *)
Fixpoint shown_script (zoom hold : nat) (hl : list string) (countries : list string)
  : list (list string) :=
  match countries with
  | [] => []
  | country :: rest =>
      repeat hl zoom ++ repeat (hl ++ [country]) hold
      ++ shown_script zoom hold (hl ++ [country]) rest
  end.

(** A lookup source whose rows are boxes. *)
Definition well_formed (gdf : GeoDataFrame) : Prop :=
  Forall (fun r => geom_minx r <= geom_maxx r /\ geom_miny r <= geom_maxy r) gdf.

(** The images saved between renderer states [st] and [st']. *)
Definition new_frames {G : Type} (st st' : renderer G) : list frame :=
  skipn (List.length (written st)) (written st').

(** ** A generator and a lookup source for running the model *)

(** Sixteen states; the draw of state [g] is [g/16]. *)
Definition toy_random (g : nat) : Q * nat :=
  (Qnat (g mod 16) / 16, ((5 * g + 3) mod 16)%nat).

Definition toy_world : GeoDataFrame :=
  [ mkRow "A" 0 0 10 10; mkRow "Russia" 20 40 180 80; mkRow "A" 5 (-3) 12 4 ].

Definition fresh {G : Type} (seed : G) : renderer G := mkRenderer seed 0%nat [].

(** The region of the name A on [toy_world]: the rows named A span
    (0, 12) x (-3, 10). *)
Definition region_A : bounds :=
  box ((0 + 12) / 2) ((-3 + 10) / 2) (force_ratio (padded_size 0 (-3) 12 10 default_pad)).

(** A lookup source with a row for each country of the script. *)
Definition atlas : GeoDataFrame :=
  [ mkRow "United States of America" (-125) 25 (-67) 49;
    mkRow "Russia" 20 41 180 82;
    mkRow "Brazil" (-74) (-34) (-35) 5;
    mkRow "Australia" 113 (-44) 154 (-10);
    mkRow "India" 68 7 97 36;
    mkRow "Antarctica" (-180) (-90) 180 (-60) ].

(** ** Map preparation (lines 85-113)

    The script drops Antarctica, and, when the India file could be read,
    renames every row of it to India, dissolves them into one row and puts
    that row in place of the world map's India.  On rows that carry a name
    and a bounding box, dissolving rows of one name leaves one row with the
    box around them, and no row when there was none. *)

(** [gdf[gdf.name != country_name]]. *)
Definition drop_name (gdf : GeoDataFrame) (country_name : string) : GeoDataFrame :=
  filter (fun r => negb (String.eqb (name r) country_name)) gdf.

(** [india_full['name'] = 'India']. *)
Definition rename_all (new_name : string) (gdf : GeoDataFrame) : GeoDataFrame :=
  map (fun r => mkRow new_name (geom_minx r) (geom_miny r) (geom_maxx r) (geom_maxy r)) gdf.

(** [india_full.dissolve(by='name').reset_index()] after the renaming. *)
Definition dissolve_india (india_full : GeoDataFrame) : GeoDataFrame :=
  match rename_all "India" india_full with
  | [] => []
  | r :: rs =>
      let '(minx, miny, maxx, maxy) := union_box r rs in
      [mkRow "India" minx miny maxx maxy]
  end.

(** Lines 109-110. *)
Definition merge_india (world india_full : GeoDataFrame) : GeoDataFrame :=
  drop_name world "India" ++ dissolve_india india_full.

(** How lines 99-113 end: the file is missing or an error is raised
    before line 109 (the map is left as it is); line 109 has dropped India
    and line 110 raises (the map is left without India); or the merge
    succeeds on the rows read from the file. *)
Inductive india_merge : Type :=
| NotMerged
| ConcatFailed
| Merged (india_full : GeoDataFrame).

(** Lines 85-113. *)
Definition prepare_world (world : GeoDataFrame) (merge : india_merge) : GeoDataFrame :=
  let world1 := drop_name world "Antarctica" in
  match merge with
  | NotMerged => world1
  | ConcatFailed => drop_name world1 "India"
  | Merged rows => merge_india world1 rows
  end.

(** [l1] is an initial segment of [l2]. *)
Definition prefix_of (l1 l2 : list string) : Prop := exists rest, l2 = l1 ++ rest.

(** The number of frames of the animation. *)
Definition total_frames (intro zoom hold outro k : nat) : nat :=
  (intro + k * (zoom + hold) + zoom + outro)%nat.

(** ** The slide show of [main.py] *)

Module Main.

(** Line 23. *)
Definition DATA_COUNTRIES : list string :=
  ["United States of America"; "Russia"; "Brazil"; "Australia"; "India"]%string.

(** What [save_frame] draws and the number in the file name
    ([frame_%03d.png]). *)
Record frame := mkFrame {
  frame_index : nat;
  highlighted : list string;
  bottom_text : string;
  xlim : list Q;
  ylim : list Q
}.

(** Lines 43-75: one more image among those saved so far. *)
Definition save_frame (highlighted_list : list string) (frame_index : nat)
           (bottom_text : string) (saved : list frame) : list frame :=
  saved ++ [ {| frame_index := frame_index;
                highlighted := highlighted_list;
                bottom_text := bottom_text;
                xlim := [-180; 180];
                ylim := [-60; 90] |} ].

(** Lines 85-87: one pass of [for i, country in enumerate(..., 1)]. *)
Definition reveal (acc : list string * list frame) (ic : nat * string)
  : list string * list frame :=
  let current_highlights := fst acc ++ [snd ic] in
  (current_highlights,
   save_frame current_highlights (fst ic) ("Target Acquired: " ++ snd ic)%string (snd acc)).

(** Lines 79-90, for any country list. *)
Definition generate_sequence (countries : list string) : list frame :=
  let saved0 := save_frame [] 0 "Declassifying files..." [] in
  let acc := fold_left reveal (combine (seq 1 (List.length countries)) countries)
                       ([], saved0) in
  save_frame (fst acc) (List.length countries + 1) "The Truth is Out There..." (snd acc).

Definition create_video : list frame := generate_sequence DATA_COUNTRIES.

(** The image of the [i]-th revealed country, counting from 0. *)
Definition reveal_frame (countries : list string) (i : nat) : frame :=
  {| frame_index := S i;
     highlighted := firstn (S i) countries;
     bottom_text := ("Target Acquired: " ++ nth i countries "")%string;
     xlim := [-180; 180];
     ylim := [-60; 90] |}.

End Main.

(** * Properties *)

(** ** Arithmetic helpers *)

Lemma Qnat_nonneg (n : nat) : 0 <= Qnat n.
Proof. unfold Qnat. change 0 with (inject_Z 0). rewrite <- Zle_Qle. lia. Qed.

Lemma Qnat_le (i j : nat) : (i <= j)%nat -> Qnat i <= Qnat j.
Proof. intros H. unfold Qnat. rewrite <- Zle_Qle. lia. Qed.

Lemma Qnat_lt (i j : nat) : (i < j)%nat -> Qnat i < Qnat j.
Proof. intros H. unfold Qnat. rewrite <- Zlt_Qlt. lia. Qed.

Lemma Qnat_pos (n : nat) : (0 < n)%nat -> 0 < Qnat n.
Proof. intros H. change 0 with (Qnat 0). now apply Qnat_lt. Qed.

Lemma half_eq (x : Q) : x / 2 == x * (1 # 2).
Proof. field. Qed.

Lemma Qdiv_le_mono (a b c : Q) : 0 < c -> a <= b -> a / c <= b / c.
Proof.
  intros Hc Hab. apply Qmult_le_compat_r; [assumption|].
  apply Qlt_le_weak, Qinv_lt_0_compat, Hc.
Qed.

(** The progress value of pass [i] of [n] lies in [0, 1). *)
Lemma progress_unit (i n : nat) : (i < n)%nat -> 0 <= Qnat i / Qnat n /\ Qnat i / Qnat n < 1.
Proof.
  intros H. assert (Hn : 0 < Qnat n) by (apply Qnat_pos; lia). split.
  - apply Qle_shift_div_l; [assumption|]. rewrite Qmult_0_l. apply Qnat_nonneg.
  - apply Qlt_shift_div_r; [assumption|]. rewrite Qmult_1_l. now apply Qnat_lt.
Qed.

(** ** Easing *)

Lemma ease_in_out_difference (a b : Q) :
  ease_in_out b - ease_in_out a
  == (b - a) * ((a * (1 - a) + b * (1 - b)) * 2 + (a * (1 - b) + b * (1 - a))).
Proof. unfold ease_in_out. ring. Qed.

Lemma ease_in_out_monotone (a b : Q) :
  0 <= a -> a <= b -> b <= 1 -> ease_in_out a <= ease_in_out b.
Proof.
  intros Ha Hab Hb.
  assert (H1 : 0 <= a * (1 - a)) by (apply Qmult_le_0_compat; lra).
  assert (H2 : 0 <= b * (1 - b)) by (apply Qmult_le_0_compat; lra).
  assert (H3 : 0 <= a * (1 - b)) by (apply Qmult_le_0_compat; lra).
  assert (H4 : 0 <= b * (1 - a)) by (apply Qmult_le_0_compat; lra).
  assert (H : 0 <= (b - a) * ((a * (1 - a) + b * (1 - b)) * 2 + (a * (1 - b) + b * (1 - a))))
    by (apply Qmult_le_0_compat; lra).
  rewrite <- ease_in_out_difference in H. lra.
Qed.

Lemma ease_in_out_0 : ease_in_out 0 == 0.
Proof. reflexivity. Qed.

Lemma ease_in_out_1 : ease_in_out 1 == 1.
Proof. reflexivity. Qed.

(** Strictly below 1 before the end: [1 - ease t = (1 - t)^2 (1 + 2t)]. *)
Lemma ease_in_out_below_1 (t : Q) : 0 <= t -> t < 1 -> ease_in_out t < 1.
Proof.
  intros H0 H1.
  assert (E : 1 - ease_in_out t == (1 - t) * ((1 - t) * (1 + 2 * t)))
    by (unfold ease_in_out; ring).
  assert (P : 0 < (1 - t) * ((1 - t) * (1 + 2 * t))).
  { apply Qmult_lt_0_compat; [lra|]. apply Qmult_lt_0_compat; lra. }
  lra.
Qed.

Lemma ease_in_out_unit (t : Q) : 0 <= t -> t <= 1 -> 0 <= ease_in_out t /\ ease_in_out t <= 1.
Proof.
  intros H0 H1. split.
  - rewrite <- ease_in_out_0. apply ease_in_out_monotone; lra.
  - rewrite <- ease_in_out_1. apply ease_in_out_monotone; lra.
Qed.

(** C6: the easing function is the smoothstep curve [t^2 (3 - 2t)], takes
    0 to 0 and 1 to 1, and is monotonic non-decreasing on [0,1]; in
    particular over the 100 evenly spaced samples [i/99], [i = 0..99]. *)
Theorem ease_in_out_smoothstep :
  (forall t, ease_in_out t == t ^ 2 * (3 - 2 * t)) /\
  ease_in_out 0 == 0 /\
  ease_in_out 1 == 1 /\
  (forall a b, 0 <= a -> a <= b -> b <= 1 -> ease_in_out a <= ease_in_out b) /\
  (forall i j, (i <= j)%nat -> (j < 100)%nat ->
               ease_in_out (Qnat i / 99) <= ease_in_out (Qnat j / 99)).
Proof.
  split; [|split; [|split; [|split]]].
  - intros t. unfold ease_in_out. ring.
  - exact ease_in_out_0.
  - exact ease_in_out_1.
  - exact ease_in_out_monotone.
  - intros i j Hij Hj. apply ease_in_out_monotone.
    + apply Qle_shift_div_l; [reflexivity|]. rewrite Qmult_0_l. apply Qnat_nonneg.
    + apply Qdiv_le_mono; [reflexivity|]. now apply Qnat_le.
    + apply Qle_shift_div_r; [reflexivity|]. rewrite Qmult_1_l.
      change 99 with (Qnat 99). apply Qnat_le. lia.
Qed.

(** The monotonicity of C6 at the samples 25/99 and 50/99. *)
Lemma ease_in_out_smoothstep_witness :
  ease_in_out (Qnat 25 / 99) <= ease_in_out (Qnat 50 / 99).
Proof.
  apply (proj2 (proj2 (proj2 (proj2 ease_in_out_smoothstep))) 25%nat 50%nat); lia.
Defined.

(** ** Bounds resolution *)

Lemma target_ratio_pos : 0 < target_ratio.
Proof. reflexivity. Qed.

Lemma WORLD_BOUNDS_proper : proper WORLD_BOUNDS.
Proof. split; reflexivity. Qed.

(** What lines 60-65 guarantee for a region of positive size: the forced
    size has the target ratio and neither side shrank. *)
Lemma force_ratio_spec (w h : Q) :
  0 < w -> 0 < h ->
  fst (force_ratio (w, h)) == snd (force_ratio (w, h)) * target_ratio /\
  w <= fst (force_ratio (w, h)) /\ h <= snd (force_ratio (w, h)) /\
  0 < fst (force_ratio (w, h)) /\ 0 < snd (force_ratio (w, h)).
Proof.
  intros Hw Hh. pose proof target_ratio_pos as HR.
  unfold force_ratio. destruct (Qle_bool (w / h) target_ratio) eqn:E; simpl.
  - apply Qle_bool_iff in E.
    assert (Hle : w <= h * target_ratio).
    { setoid_replace w with (w / h * h) by (field; lra).
      rewrite (Qmult_comm h). apply Qmult_le_compat_r; lra. }
    assert (0 < h * target_ratio) by (apply Qmult_lt_0_compat; assumption).
    repeat split; try lra.
  - assert (Hlt : target_ratio < w / h).
    { apply Qnot_le_lt. intros C. apply Qle_bool_iff in C. congruence. }
    assert (Hh' : h < w / target_ratio).
    { apply Qlt_shift_div_l; [assumption|].
      setoid_replace w with (w / h * h) by (field; lra).
      rewrite (Qmult_comm h). apply Qmult_lt_compat_r; assumption. }
    repeat split; try lra.
    field. lra.
Qed.

(** The box of line 67 has the size and the centre it was built from. *)
Lemma box_geometry (cx cy w h : Q) :
  width (box cx cy (w, h)) == w /\ height (box cx cy (w, h)) == h /\
  (at_ (box cx cy (w, h)) 0 + at_ (box cx cy (w, h)) 1) / 2 == cx /\
  (at_ (box cx cy (w, h)) 2 + at_ (box cx cy (w, h)) 3) / 2 == cy.
Proof. unfold width, height, box, at_; simpl. repeat split; field. Qed.

Lemma box_contains (cx cy w h w' h' : Q) :
  w <= w' -> h <= h' -> contains (box cx cy (w', h')) (box cx cy (w, h)).
Proof.
  intros Hw Hh. unfold contains, box, at_; simpl. rewrite !half_eq.
  repeat split; lra.
Qed.

(** *** Floats *)

Lemma fat_floats (b : bounds) (j : nat) : fat (floats b) j = Fin (at_ b j).
Proof. unfold fat, floats, at_. apply (map_nth Fin b 0 j). Qed.

Lemma finite_view_floats (b : bounds) :
  List.length b = 4%nat -> finite_view (floats b) = Some b.
Proof.
  intros H. destruct b as [|b0 [|b1 [|b2 [|b3 [|]]]]]; try discriminate H. reflexivity.
Qed.

Lemma finite_view_Some (v : view) (b : bounds) :
  finite_view v = Some b -> v = floats b /\ List.length b = 4%nat.
Proof.
  intros H.
  destruct v as [|[a|] [|[c|] [|[d|] [|[e|] [|]]]]]; try discriminate H.
  injection H as <-. split; reflexivity.
Qed.

Lemma interp_view_floats (a b : bounds) (t : Q) :
  interp_view (floats a) (floats b) t = floats (interp_bounds a b t).
Proof.
  unfold interp_view, interp_bounds, floats. rewrite map_map. apply map_ext.
  intros j. fold (floats a) (floats b). now rewrite !fat_floats.
Qed.

Lemma interp_view_to_nan (v : view) (t : Q) : interp_view v nan_view t = nan_view.
Proof.
  unfold interp_view, nan_view. simpl.
  destruct (fat v 0), (fat v 1), (fat v 2), (fat v 3); reflexivity.
Qed.

(** *** The lookup *)

Lemma total_bounds_empty : total_bounds [] = Ok (NaN, NaN, NaN, NaN).
Proof. reflexivity. Qed.

Lemma total_bounds_never_raises (rows : GeoDataFrame) : total_bounds rows <> ValueError.
Proof.
  destruct rows as [|r rs]; [discriminate|]. unfold total_bounds.
  destruct (union_box r rs) as [[[a b] c] d]. discriminate.
Qed.

Lemma total_bounds_cons (r : row) (rs : GeoDataFrame) :
  exists minx miny maxx maxy,
    union_box r rs = (minx, miny, maxx, maxy) /\
    total_bounds (r :: rs) = Ok (Fin minx, Fin miny, Fin maxx, Fin maxy).
Proof.
  unfold total_bounds. destruct (union_box r rs) as [[[a b] c] d].
  exists a, b, c, d. split; reflexivity.
Qed.

Lemma total_bounds_finite (rows : GeoDataFrame) (minx miny maxx maxy : Q) :
  total_bounds rows = Ok (Fin minx, Fin miny, Fin maxx, Fin maxy) ->
  exists r rs, rows = r :: rs /\ union_box r rs = (minx, miny, maxx, maxy).
Proof.
  intros H. destruct rows as [|r rs]; [discriminate H|].
  exists r, rs. split; [reflexivity|].
  unfold total_bounds in H. destruct (union_box r rs) as [[[a b] c] d].
  now injection H as -> -> -> ->.
Qed.

(** A found name other than 'World' takes the path of lines 52-67 on
    finite numbers. *)
Lemma get_target_bounds_found (gdf : GeoDataFrame) (country_name : string)
      (pad minx miny maxx maxy : Q) :
  country_name <> "World"%string ->
  total_bounds (select_name gdf country_name) = Ok (Fin minx, Fin miny, Fin maxx, Fin maxy) ->
  get_target_bounds gdf country_name pad
  = floats (box ((minx + maxx) / 2) ((miny + maxy) / 2)
                (force_ratio (padded_size minx miny maxx maxy pad))).
Proof.
  intros Hn Hb. unfold get_target_bounds.
  destruct (String.eqb_spec country_name "World") as [E|_]; [contradiction|].
  rewrite Hb. cbn [fadd fsub fmul fdiv fgt]. unfold force_ratio, padded_size.
  destruct (Qle_bool ((maxx - minx + pad) / (maxy - miny + pad)) target_ratio); reflexivity.
Qed.

Lemma select_name_missing (gdf : GeoDataFrame) (country_name : string) :
  ~ In country_name (map name gdf) -> select_name gdf country_name = [].
Proof.
  unfold select_name. induction gdf as [|r gdf IH]; intros H; simpl; [reflexivity|].
  destruct (String.eqb_spec (name r) country_name) as [E|_].
  - exfalso. apply H. left. exact E.
  - apply IH. intros C. apply H. right. exact C.
Qed.

Lemma select_name_present (gdf : GeoDataFrame) (country_name : string) :
  In country_name (map name gdf) -> select_name gdf country_name <> [].
Proof.
  intros H. apply in_map_iff in H. destruct H as (r & Hn & Hr).
  assert (Hs : In r (select_name gdf country_name)).
  { unfold select_name. apply filter_In. split; [exact Hr|]. now apply String.eqb_eq. }
  intros E. now rewrite E in Hs.
Qed.

(** A name that no row carries, other than 'World', takes lines 52-67 on
    four NaN. *)
Lemma get_target_bounds_missing (gdf : GeoDataFrame) (country_name : string) (pad : Q) :
  country_name <> "World"%string -> ~ In country_name (map name gdf) ->
  get_target_bounds gdf country_name pad = nan_view.
Proof.
  intros Hn H. unfold get_target_bounds.
  destruct (String.eqb_spec country_name "World") as [E|_]; [contradiction|].
  now rewrite (select_name_missing gdf country_name H).
Qed.

Lemma get_target_bounds_length (gdf : GeoDataFrame) (country_name : string) (pad : Q) :
  List.length (get_target_bounds gdf country_name pad) = 4%nat.
Proof.
  unfold get_target_bounds. destruct (String.eqb country_name "World"); [reflexivity|].
  destruct (total_bounds (select_name gdf country_name)) as [[[[minx miny] maxx] maxy]|];
    reflexivity.
Qed.

(** C10: for the name 'World' the fixed region [-170, 170, -55, 85] is
    returned as it is, whatever the lookup source and the padding (neither
    the padding nor the 9:16 normalization is applied), and its
    width/height is 17/7, not the target ratio. *)
Theorem get_target_bounds_World :
  forall (gdf : GeoDataFrame) (pad : Q),
    get_target_bounds gdf "World" pad = floats WORLD_BOUNDS /\
    WORLD_BOUNDS = [-170; 170; -55; 85] /\
    width WORLD_BOUNDS / height WORLD_BOUNDS == 17 / 7 /\
    ~ width WORLD_BOUNDS / height WORLD_BOUNDS == target_ratio.
Proof.
  intros gdf pad. repeat split.
  intros C. discriminate C.
Qed.

(** C2, on the code: a name that no row of the lookup source carries does
    not resolve to [WORLD_BOUNDS].  The bounds of the empty selection are
    four NaN and raise nothing, so the handler that returns [WORLD_BOUNDS]
    is never taken (the lookup never raises), lines 52-67 run on NaN, and
    the function returns four NaN, which is not a region. *)
Theorem get_target_bounds_missing_is_nan :
  forall (gdf : GeoDataFrame) (country_name : string) (pad : Q),
    country_name <> "World"%string ->
    ~ In country_name (map name gdf) ->
    total_bounds (select_name gdf country_name) = Ok (NaN, NaN, NaN, NaN) /\
    get_target_bounds gdf country_name pad = [NaN; NaN; NaN; NaN] /\
    get_target_bounds gdf country_name pad <> floats WORLD_BOUNDS /\
    finite_view (get_target_bounds gdf country_name pad) = None /\
    (forall rows, total_bounds rows <> ValueError).
Proof.
  intros gdf country_name pad Hn H.
  rewrite (get_target_bounds_missing gdf country_name pad Hn H).
  rewrite (select_name_missing gdf country_name H).
  split; [reflexivity|]. split; [reflexivity|]. split; [discriminate|].
  split; [reflexivity|exact total_bounds_never_raises].
Qed.

(** C2 on the sample source, which has no row named B. *)
Lemma get_target_bounds_missing_is_nan_witness :
  "B"%string <> "World"%string /\
  ~ In "B"%string (map name toy_world) /\
  get_target_bounds toy_world "B" default_pad = [NaN; NaN; NaN; NaN].
Proof.
  assert (Hn : "B"%string <> "World"%string) by discriminate.
  assert (H : ~ In "B"%string (map name toy_world)).
  { simpl. intros [C|[C|[C|[]]]]; discriminate C. }
  split; [exact Hn|]. split; [exact H|].
  exact (proj1 (proj2 (get_target_bounds_missing_is_nan toy_world "B" default_pad Hn H))).
Defined.

(** C3 as stated fails: with padding 15 the padded region of the raw
    region (0, 10, 0, 10) extends it by 7.5 on each side, not by 15, and
    the region returned for it extends it by 7.5 in x and 155/9 in y. *)
Lemma padding_is_not_per_side :
  ~ (forall minx miny maxx maxy p : Q,
        minx <= maxx -> miny <= maxy -> 0 <= p ->
        margin_exactly (padded_region minx miny maxx maxy p)
                       (raw_region minx miny maxx maxy) p) /\
  (exists region,
      get_target_bounds [mkRow "A" 0 0 10 10] "A" 15 = floats region /\
      ~ margin_exactly region (raw_region 0 0 10 10) 15 /\
      vp_eq region [- (15 / 2); 10 + 15 / 2; - (155 / 9); 10 + 155 / 9]) /\
  margin_exactly (padded_region 0 0 10 10 15) (raw_region 0 0 10 10) (15 / 2).
Proof.
  split; [|split].
  - intros H.
    assert (C : margin_exactly (padded_region 0 0 10 10 15) (raw_region 0 0 10 10) 15)
      by (apply H; discriminate).
    destruct C as [C _]. discriminate C.
  - exists (box ((0 + 10) / 2) ((0 + 10) / 2) (force_ratio (padded_size 0 0 10 10 15))).
    split; [|split].
    + apply get_target_bounds_found; [discriminate|reflexivity].
    + intros [C _]. discriminate C.
    + repeat constructor.
  - repeat split.
Qed.

(** C3, amended: the padding is added to the width and to the height, so
    the padded region extends the raw region by exactly [p/2] on each of
    the four sides; it contains the raw region when [p >= 0], strictly on
    all four sides when [p > 0]; and the region returned for a found name
    contains the padded region when the padded height is positive. *)
Theorem padding_is_half_per_side :
  forall minx miny maxx maxy p : Q,
    margin_exactly (padded_region minx miny maxx maxy p) (raw_region minx miny maxx maxy) (p / 2) /\
    (0 <= p -> contains (padded_region minx miny maxx maxy p) (raw_region minx miny maxx maxy)) /\
    (0 < p ->
     strictly_contains (padded_region minx miny maxx maxy p) (raw_region minx miny maxx maxy)) /\
    (forall gdf country_name,
        country_name <> "World"%string ->
        total_bounds (select_name gdf country_name)
        = Ok (Fin minx, Fin miny, Fin maxx, Fin maxy) ->
        0 < (maxy - miny) + p ->
        exists region,
          get_target_bounds gdf country_name p = floats region /\
          contains region (padded_region minx miny maxx maxy p)).
Proof.
  intros minx miny maxx maxy p.
  split; [|split; [|split]].
  - unfold margin_exactly, padded_region, padded_size, raw_region, box, at_; simpl.
    repeat split; field.
  - intros Hp. unfold contains, padded_region, padded_size, raw_region, box, at_; simpl.
    rewrite !half_eq. repeat split; lra.
  - intros Hp. unfold strictly_contains, padded_region, padded_size, raw_region, box, at_; simpl.
    rewrite !half_eq. repeat split; lra.
  - intros gdf country_name Hn Hb Hh.
    eexists. split; [exact (get_target_bounds_found gdf country_name p _ _ _ _ Hn Hb)|].
    unfold padded_region. generalize ((minx + maxx) / 2) ((miny + maxy) / 2).
    unfold padded_size. set (w := maxx - minx + p). set (h := maxy - miny + p) in *.
    intros cx cy. pose proof target_ratio_pos as HR.
    unfold force_ratio. destruct (Qle_bool (w / h) target_ratio) eqn:E.
    + apply Qle_bool_iff in E. apply box_contains; [|lra].
      setoid_replace w with (w / h * h) by (field; lra).
      rewrite (Qmult_comm h). apply Qmult_le_compat_r; lra.
    + assert (Hlt : target_ratio < w / h).
      { apply Qnot_le_lt. intros C. apply Qle_bool_iff in C. congruence. }
      apply box_contains; [lra|]. apply Qlt_le_weak.
      apply Qlt_shift_div_l; [assumption|].
      setoid_replace w with (w / h * h) by (field; lra).
      rewrite (Qmult_comm h). apply Qmult_lt_compat_r; assumption.
Qed.

(** The amended C3 on the raw region (0, 10, 0, 10) with the default
    padding 15. *)
Lemma padding_is_half_per_side_witness :
  contains (padded_region 0 0 10 10 15) (raw_region 0 0 10 10) /\
  strictly_contains (padded_region 0 0 10 10 15) (raw_region 0 0 10 10) /\
  exists region,
    get_target_bounds [mkRow "A" 0 0 10 10] "A" 15 = floats region /\
    contains region (padded_region 0 0 10 10 15).
Proof.
  split; [|split].
  - apply (proj1 (proj2 (padding_is_half_per_side 0 0 10 10 15))). discriminate.
  - apply (proj1 (proj2 (proj2 (padding_is_half_per_side 0 0 10 10 15)))). reflexivity.
  - apply (proj2 (proj2 (proj2 (padding_is_half_per_side 0 0 10 10 15)))).
    + discriminate.
    + reflexivity.
    + reflexivity.
Defined.

(** C4: for a found name whose padded region has positive width and
    height, the returned rectangle has width/height equal to the target
    ratio 9/16 (so within 1e-6 of it), contains the region before
    normalization, has the centre of the raw region, and is at least as
    wide and as high as before normalization. *)
Theorem get_target_bounds_ratio :
  forall (gdf : GeoDataFrame) (country_name : string) (pad minx miny maxx maxy : Q),
    country_name <> "World"%string ->
    total_bounds (select_name gdf country_name)
    = Ok (Fin minx, Fin miny, Fin maxx, Fin maxy) ->
    0 < (maxx - minx) + pad ->
    0 < (maxy - miny) + pad ->
    exists region,
      get_target_bounds gdf country_name pad = floats region /\
      let before := padded_region minx miny maxx maxy pad in
      target_ratio == 9 / 16 /\
      width region / height region == target_ratio /\
      (- (1 / 1000000) <= width region / height region - target_ratio /\
       width region / height region - target_ratio <= 1 / 1000000) /\
      contains region before /\
      (at_ region 0 + at_ region 1) / 2 == (minx + maxx) / 2 /\
      (at_ region 2 + at_ region 3) / 2 == (miny + maxy) / 2 /\
      width before <= width region /\ height before <= height region.
Proof.
  intros gdf country_name pad minx miny maxx maxy Hn Hb Hw Hh.
  eexists. split; [exact (get_target_bounds_found gdf country_name pad _ _ _ _ Hn Hb)|].
  cbn zeta.
  unfold padded_region, padded_size.
  set (w := maxx - minx + pad) in *. set (h := maxy - miny + pad) in *.
  destruct (force_ratio_spec w h Hw Hh) as (Hr & Hw' & Hh' & Hpw & Hph).
  destruct (force_ratio (w, h)) as [w' h'] eqn:Ef. simpl in Hr, Hw', Hh', Hpw, Hph.
  set (cx := (minx + maxx) / 2). set (cy := (miny + maxy) / 2).
  destruct (box_geometry cx cy w' h') as (Gw & Gh & Gx & Gy).
  destruct (box_geometry cx cy w h) as (Bw & Bh & _ & _).
  assert (Hratio : width (box cx cy (w', h')) / height (box cx cy (w', h')) == target_ratio).
  { rewrite Gw, Gh, Hr. field. lra. }
  split; [reflexivity|]. split; [exact Hratio|]. split.
  - rewrite Hratio. split.
    + setoid_replace (target_ratio - target_ratio) with 0 by ring. discriminate.
    + setoid_replace (target_ratio - target_ratio) with 0 by ring. discriminate.
  - split; [now apply box_contains|]. split; [exact Gx|]. split; [exact Gy|].
    rewrite Gw, Gh, Bw, Bh. split; assumption.
Qed.

(** C4 on the sample source: the name A selects two rows whose boxes
    span (0, 12) x (-3, 10). *)
Lemma get_target_bounds_ratio_witness :
  exists region,
    get_target_bounds toy_world "A" default_pad = floats region /\
    width region / height region == target_ratio.
Proof.
  destruct (get_target_bounds_ratio toy_world "A" default_pad 0 (-3) 12 10)
    as (region & Hg & _ & Hr & _).
  - discriminate.
  - reflexivity.
  - reflexivity.
  - reflexivity.
  - exists region. split; [exact Hg|exact Hr].
Defined.

(** ** Rendering loops *)

Section Rendering.

Variable G : Type.
Variable random : G -> Q * G.

Lemma shake_offsets_S (m : nat) (s : Q) (g : G) :
  shake_offsets random (S m) s g
  = (- s + (s - - s) * fst (random g), - s + (s - - s) * fst (random (snd (random g))))
    :: shake_offsets random m s (after_draws random 2 g).
Proof.
  unfold shake_offsets. replace (2 * S m)%nat with (S (S (2 * m))) by lia.
  simpl draws. simpl after_draws.
  destruct (random g) as [r1 g1]. simpl. destruct (random g1) as [r2 g2]. reflexivity.
Qed.

Lemma shake_offsets_length (m : nat) (s : Q) (g : G) :
  List.length (shake_offsets random m s g) = m.
Proof.
  revert g. induction m as [|m IH]; intros g; [reflexivity|].
  rewrite shake_offsets_S. simpl. now rewrite IH.
Qed.

Lemma after_draws_add (a b : nat) (g : G) :
  after_draws random (a + b) g = after_draws random b (after_draws random a g).
Proof. revert g. induction a as [|a IH]; intros g; simpl; [reflexivity|apply IH]. Qed.

(** One call of [render_frame]: two draws, one more image. *)
Lemma render_frame_eq (b : bounds) (hl : list string) (text : string) (s : Q)
      (st : renderer G) :
  render_frame random b hl text s st
  = mkRenderer (after_draws random 2 (gen st)) (S (frame_count st))
      (written st ++
         [jitter_frame (frame_count st) b hl text
            (- s + (s - - s) * fst (random (gen st)),
             - s + (s - - s) * fst (random (snd (random (gen st)))))]).
Proof.
  unfold render_frame, uniform, jitter_frame. simpl.
  destruct (random (gen st)) as [r1 g1]. simpl. destruct (random g1) as [r2 g2]. reflexivity.
Qed.

(** A loop whose pass [i] renders [view i] with intensity [s]. *)
Lemma render_loop_from (view : nat -> bounds) (hl : list string) (text : string) (s : Q)
      (k a : nat) (st : renderer G) :
  fold_left (fun acc i => render_frame random (view i) hl text s acc) (seq a k) st
  = mkRenderer (after_draws random (2 * k) (gen st)) (frame_count st + k)
      (written st ++
         loop_frames view hl text (frame_count st) a (shake_offsets random k s (gen st))).
Proof.
  revert a st. induction k as [|k IH]; intros a st.
  - simpl. rewrite app_nil_r, Nat.add_0_r. now destruct st.
  - simpl seq. simpl fold_left. rewrite IH, render_frame_eq. simpl gen. simpl frame_count.
    simpl written. rewrite shake_offsets_S. simpl loop_frames.
    rewrite <- app_assoc. simpl app.
    replace (2 * S k)%nat with (2 + 2 * k)%nat by lia. rewrite after_draws_add.
    f_equal. lia.
Qed.

Lemma render_loop_eq (view : nat -> bounds) (hl : list string) (text : string) (s : Q)
      (k : nat) (st : renderer G) :
  for_range k (fun i => render_frame random (view i) hl text s) st
  = mkRenderer (after_draws random (2 * k) (gen st)) (frame_count st + k)
      (written st ++
         loop_frames view hl text (frame_count st) 0 (shake_offsets random k s (gen st))).
Proof. unfold for_range. apply render_loop_from. Qed.

Lemma hold_phase_eq (m : nat) (b : bounds) (hl : list string) (text : string) (s : Q)
      (st : renderer G) :
  hold_phase random m b hl text s st
  = mkRenderer (after_draws random (2 * m) (gen st)) (frame_count st + m)
      (written st ++
         loop_frames (fun _ => b) hl text (frame_count st) 0
                     (shake_offsets random m s (gen st))).
Proof. unfold hold_phase. apply (render_loop_eq (fun _ => b)). Qed.

Lemma zoom_phase_eq (n : nat) (a b : bounds) (hl : list string) (text : string)
      (st : renderer G) :
  zoom_phase random n a b hl text st
  = mkRenderer (after_draws random (2 * n) (gen st)) (frame_count st + n)
      (written st ++
         loop_frames (fun i => interp_bounds a b (ease_in_out (Qnat i / Qnat n)))
                     hl text (frame_count st) 0 (shake_offsets random n 0 (gen st))).
Proof.
  unfold zoom_phase.
  apply (render_loop_eq (fun i => interp_bounds a b (ease_in_out (Qnat i / Qnat n)))).
Qed.

End Rendering.

Lemma loop_frames_length (view : nat -> bounds) (hl : list string) (text : string)
      (n i : nat) (offs : list (Q * Q)) :
  List.length (loop_frames view hl text n i offs) = List.length offs.
Proof.
  revert n i. induction offs as [|o offs IH]; intros n i; simpl; [reflexivity|].
  now rewrite IH.
Qed.

Lemma new_frames_app {G : Type} (st st' : renderer G) (fs : list frame) :
  written st' = written st ++ fs -> new_frames st st' = fs.
Proof.
  intros H. unfold new_frames. rewrite H, skipn_app, skipn_all, Nat.sub_diag. reflexivity.
Qed.

Lemma loop_frames_nth (view : nat -> bounds) (hl : list string) (text : string)
      (n a : nat) (offs : list (Q * Q)) (i : nat) (f : frame) :
  nth_error (loop_frames view hl text n a offs) i = Some f ->
  exists o, nth_error offs i = Some o /\
            f = jitter_frame (n + i) (view (a + i)%nat) hl text o.
Proof.
  revert n a i. induction offs as [|o offs IH]; intros n a i H.
  - destruct i; discriminate H.
  - destruct i as [|i]; simpl in H.
    + injection H as <-. exists o. rewrite !Nat.add_0_r. split; reflexivity.
    + destruct (IH _ _ _ H) as (o' & Ho & ->). exists o'. split; [exact Ho|].
      f_equal; [lia|f_equal; lia].
Qed.

Lemma viewport_jitter_frame (n : nat) (b : bounds) (hl : list string) (text : string)
      (o : Q * Q) :
  viewport (jitter_frame n b hl text o) = translate b (fst o) (snd o).
Proof. reflexivity. Qed.

Lemma at_translate (c : bounds) (dx dy : Q) (k : nat) :
  (k < 4)%nat ->
  at_ (translate c dx dy) k == at_ c k + (if (k <? 2)%nat then dx else dy).
Proof.
  intros H. do 4 (destruct k as [|k]; [reflexivity|]). lia.
Qed.

Lemma at_interp_bounds (a b : bounds) (t : Q) (k : nat) :
  (k < 4)%nat -> at_ (interp_bounds a b t) k = at_ a k + (at_ b k - at_ a k) * t.
Proof.
  intros H. do 4 (destruct k as [|k]; [reflexivity|]). lia.
Qed.

(** Two viewports of four scalars that agree at every index are equal. *)
Lemma vp_eq_pointwise (a b : bounds) :
  List.length a = 4%nat -> List.length b = 4%nat ->
  (forall k, (k < 4)%nat -> at_ a k == at_ b k) -> vp_eq a b.
Proof.
  intros Ha Hb H.
  destruct a as [|a0 [|a1 [|a2 [|a3 [|]]]]]; try discriminate Ha.
  destruct b as [|b0 [|b1 [|b2 [|b3 [|]]]]]; try discriminate Hb.
  unfold vp_eq. repeat constructor.
  - apply (H 0%nat); lia.
  - apply (H 1%nat); lia.
  - apply (H 2%nat); lia.
  - apply (H 3%nat); lia.
Qed.

Lemma vp_eq_at (a b : bounds) (k : nat) : vp_eq a b -> at_ a k == at_ b k.
Proof.
  intros H. revert k. induction H as [|x y a b Hxy _ IH]; intros k.
  - reflexivity.
  - destruct k as [|k]; [exact Hxy|apply IH].
Qed.

(** Without shake the offsets vanish, whatever the generator draws. *)
Lemma shake_offsets_still {G : Type} (random : G -> Q * G) (m : nat) (g : G) :
  Forall (fun o => fst o == 0 /\ snd o == 0) (shake_offsets random m 0 g).
Proof.
  revert g. induction m as [|m IH]; intros g.
  - constructor.
  - rewrite shake_offsets_S. constructor; [|apply IH]. simpl. split; ring.
Qed.

(** ** Interpolation *)

(** C5 as stated fails where the zoom does not move: zooming over 25
    frames from the world view to the world view, frame 24 is exactly the
    end viewport.  The animation reaches such a zoom through the target
    name 'World', which resolves to the world view: with the single target
    'World', 1 intro frame and 2 zoom frames, the last frame of the first
    zoom (frame 2) is exactly the world view. *)
Lemma zoom_between_equal_viewports_arrives :
  (exists f,
      nth_error (new_frames (fresh 3%nat)
                   (zoom_phase toy_random 25 WORLD_BOUNDS WORLD_BOUNDS []
                      "Global Analysis Complete" (fresh 3%nat))) 24 = Some f /\
      vp_eq (viewport f) WORLD_BOUNDS) /\
  (exists st f,
      animation_sequence toy_random 1 2 2 1 0.8 toy_world ["World"]%string (fresh 3%nat)
      = Completed st /\
      nth_error (written st) 2 = Some f /\
      caption f = "Scanning: World"%string /\
      vp_eq (viewport f) WORLD_BOUNDS).
Proof.
  split.
  - eexists. split.
    + vm_compute. reflexivity.
    + repeat constructor.
  - eexists. eexists. split; [|split; [|split]].
    + vm_compute. reflexivity.
    + vm_compute. reflexivity.
    + reflexivity.
    + repeat constructor.
Qed.

(** C5, amended: in a zoom loop of [N] frames from [A] to [B], frame [i]
    has each of its four scalars equal to
    [A[k] + (B[k] - A[k]) * ease(i/N)]; frame 0 is [A]; frame [N-1] misses
    [B] in scalar [k] by the residual [(B[k] - A[k]) * (1 - ease((N-1)/N))],
    whose factor is positive, so it equals [B[k]] only where [A[k]]
    already does; for [N = 25] the factor is [1 - ease(24/25) = 73/15625]. *)
Theorem zoom_phase_interpolates :
  forall (G : Type) (random : G -> Q * G) (N : nat) (A B : bounds)
         (hl : list string) (text : string) (st : renderer G),
    List.length A = 4%nat -> List.length B = 4%nat ->
    let fs := new_frames st (zoom_phase random N A B hl text st) in
    List.length fs = N /\
    (forall i f, nth_error fs i = Some f ->
       forall k, (k < 4)%nat ->
         at_ (viewport f) k == at_ A k + (at_ B k - at_ A k) * ease_in_out (Qnat i / Qnat N)) /\
    (forall f, nth_error fs 0 = Some f -> vp_eq (viewport f) A) /\
    (forall f, nth_error fs (N - 1) = Some f ->
       0 < 1 - ease_in_out (Qnat (N - 1) / Qnat N) /\
       forall k, (k < 4)%nat ->
         at_ B k - at_ (viewport f) k
         == (at_ B k - at_ A k) * (1 - ease_in_out (Qnat (N - 1) / Qnat N)) /\
         (at_ (viewport f) k == at_ B k <-> at_ A k == at_ B k)) /\
    1 - ease_in_out (Qnat 24 / Qnat 25) == 73 / 15625.
Proof.
  intros G random N A B hl text st HA HB fs.
  assert (Efs : fs = loop_frames (fun i => interp_bounds A B (ease_in_out (Qnat i / Qnat N)))
                       hl text (frame_count st) 0 (shake_offsets random N 0 (gen st))).
  { subst fs. apply new_frames_app. now rewrite zoom_phase_eq. }
  assert (Hlen : List.length fs = N).
  { rewrite Efs, loop_frames_length. apply shake_offsets_length. }
  assert (Hat : forall i f, nth_error fs i = Some f ->
            forall k, (k < 4)%nat ->
              at_ (viewport f) k
              == at_ A k + (at_ B k - at_ A k) * ease_in_out (Qnat i / Qnat N)).
  { intros i f Hf k Hk. rewrite Efs in Hf.
    destruct (loop_frames_nth _ _ _ _ _ _ _ _ Hf) as (o & Ho & ->).
    pose proof (shake_offsets_still random N (gen st)) as Hz.
    rewrite Forall_forall in Hz. destruct (Hz o (nth_error_In _ _ Ho)) as [Hx Hy].
    rewrite viewport_jitter_frame, at_translate by assumption.
    rewrite at_interp_bounds by assumption. simpl Nat.add.
    destruct (k <? 2)%nat; [rewrite Hx|rewrite Hy]; ring. }
  split; [exact Hlen|]. split; [exact Hat|]. split; [|split].
  - intros f Hf. apply vp_eq_pointwise.
    + rewrite Efs in Hf. destruct (loop_frames_nth _ _ _ _ _ _ _ _ Hf) as (o & _ & ->).
      reflexivity.
    + exact HA.
    + intros k Hk. rewrite (Hat _ _ Hf k Hk).
      assert (E : ease_in_out (Qnat 0 / Qnat N) == 0).
      { unfold ease_in_out, Qdiv. change (Qnat 0) with 0. ring. }
      rewrite E. ring.
  - intros f Hf.
    assert (HN : (N - 1 < N)%nat).
    { rewrite <- Hlen at 2. apply nth_error_Some. rewrite Hf. discriminate. }
    destruct (progress_unit _ _ HN) as [P0 P1].
    pose proof (ease_in_out_below_1 _ P0 P1) as Hb.
    split; [lra|]. intros k Hk. pose proof (Hat _ _ Hf k Hk) as E.
    set (e := ease_in_out (Qnat (N - 1) / Qnat N)) in *.
    assert (R : at_ B k - at_ (viewport f) k == (at_ B k - at_ A k) * (1 - e))
      by (rewrite E; ring).
    split; [exact R|]. split; intros H.
    + assert (Z : (at_ B k - at_ A k) * (1 - e) == 0) by (rewrite <- R, H; ring).
      apply Qmult_integral in Z. destruct Z as [Z|Z]; lra.
    + rewrite E, H. ring.
  - reflexivity.
Qed.

(** The first frame of the zoom of C5 is the start viewport, on the
    script's first pass: 25 frames from the world view to the sample region A. *)
Lemma zoom_phase_interpolates_witness :
  List.length WORLD_BOUNDS = 4%nat /\
  List.length region_A = 4%nat /\
  forall f,
    nth_error (new_frames (fresh 3%nat)
                 (zoom_phase toy_random ZOOM_FRAMES WORLD_BOUNDS region_A [] "Scanning: A"
                    (fresh 3%nat))) 0 = Some f ->
    vp_eq (viewport f) WORLD_BOUNDS.
Proof.
  split; [reflexivity|]. split; [reflexivity|].
  apply (proj1 (proj2 (proj2
           (zoom_phase_interpolates nat toy_random ZOOM_FRAMES WORLD_BOUNDS
              region_A [] "Scanning: A"%string (fresh 3%nat) eq_refl eq_refl)))).
Defined.

(** ** Hold phases *)

Lemma toy_random_unit (g : nat) : 0 <= fst (toy_random g) /\ fst (toy_random g) < 1.
Proof.
  change (fst (toy_random g)) with (Qnat (g mod 16) / 16). split.
  - apply Qle_shift_div_l; [reflexivity|]. rewrite Qmult_0_l. apply Qnat_nonneg.
  - apply Qlt_shift_div_r; [reflexivity|]. rewrite Qmult_1_l.
    change 16 with (Qnat 16). apply Qnat_lt. apply Nat.mod_upper_bound. discriminate.
Qed.

(** [uniform(-s, s)] stays within [-s, s] when the draw is in [0, 1). *)
Lemma uniform_within (s r : Q) : 0 <= s -> 0 <= r -> r < 1 -> within s (- s + (s - - s) * r).
Proof.
  intros Hs H0 H1. unfold within.
  assert (A : 0 <= s * r) by (apply Qmult_le_0_compat; assumption).
  assert (B : 0 <= s * (1 - r)) by (apply Qmult_le_0_compat; lra).
  split; lra.
Qed.

Lemma shake_offsets_within {G : Type} (random : G -> Q * G) (m : nat) (s : Q) (g : G) :
  (forall g', 0 <= fst (random g') /\ fst (random g') < 1) ->
  0 <= s ->
  Forall (fun o => within s (fst o) /\ within s (snd o)) (shake_offsets random m s g).
Proof.
  intros Hr Hs. revert g. induction m as [|m IH]; intros g.
  - constructor.
  - rewrite shake_offsets_S. constructor; [|apply IH]. simpl.
    split; apply uniform_within; try assumption; apply Hr.
Qed.

Lemma loop_frames_translate (c : bounds) (hl : list string) (text : string) (n a : nat)
      (offs : list (Q * Q)) :
  Forall2 (fun f o => viewport f = translate c (fst o) (snd o))
          (loop_frames (fun _ => c) hl text n a offs) offs.
Proof.
  revert n a. induction offs as [|o offs IH]; intros n a; simpl; constructor.
  - reflexivity.
  - apply IH.
Qed.

Lemma loop_frames_observed (c : bounds) (hl : list string) (text : string) (n a : nat)
      (offs : list (Q * Q)) :
  Forall2 offset_eq (map (observed_offset c) (loop_frames (fun _ => c) hl text n a offs)) offs.
Proof.
  revert n a. induction offs as [|o offs IH]; intros n a; simpl; constructor.
  - unfold offset_eq, observed_offset, jitter_frame, at_.
    cbn [xlim ylim nth fst snd]. split; ring.
  - apply IH.
Qed.

Lemma Forall2_offset_eq_sym (l1 l2 : list (Q * Q)) :
  Forall2 offset_eq l1 l2 -> Forall2 offset_eq l2 l1.
Proof.
  induction 1 as [|x y l1 l2 [Hx Hy] _ IH]; constructor; [|exact IH].
  split; symmetry; assumption.
Qed.

Lemma Forall2_offset_eq_trans (l1 l2 l3 : list (Q * Q)) :
  Forall2 offset_eq l1 l2 -> Forall2 offset_eq l2 l3 -> Forall2 offset_eq l1 l3.
Proof.
  intros H. revert l3. induction H as [|x y l1 l2 [Hx Hy] _ IH]; intros l3 H3.
  - inversion H3. constructor.
  - inversion H3 as [|y' z l2' l3' [Hx' Hy'] Hr]; subst. constructor; [|now apply IH].
    split; etransitivity; eassumption.
Qed.

(** C7: a hold loop with shake intensity 0 saves [M] frames whose
    viewports all equal the viewport [C] it holds, whatever the generator
    draws. *)
Theorem hold_phase_still :
  forall (G : Type) (random : G -> Q * G) (M : nat) (C : bounds)
         (hl : list string) (text : string) (st : renderer G),
    List.length C = 4%nat ->
    let fs := new_frames st (hold_phase random M C hl text 0 st) in
    List.length fs = M /\ Forall (fun f => vp_eq (viewport f) C) fs.
Proof.
  intros G random M C hl text st HC fs.
  assert (Efs : fs = loop_frames (fun _ => C) hl text (frame_count st) 0
                       (shake_offsets random M 0 (gen st))).
  { subst fs. apply new_frames_app. now rewrite hold_phase_eq. }
  split.
  - rewrite Efs, loop_frames_length. apply shake_offsets_length.
  - apply Forall_forall. intros f Hf. apply In_nth_error in Hf. destruct Hf as [i Hf].
    rewrite Efs in Hf. destruct (loop_frames_nth _ _ _ _ _ _ _ _ Hf) as (o & Ho & ->).
    pose proof (shake_offsets_still random M (gen st)) as Hz.
    rewrite Forall_forall in Hz. destruct (Hz o (nth_error_In _ _ Ho)) as [Hx Hy].
    apply vp_eq_pointwise; [reflexivity|exact HC|].
    intros k Hk. rewrite viewport_jitter_frame, at_translate by assumption.
    destruct (k <? 2)%nat; [rewrite Hx|rewrite Hy]; ring.
Qed.

(** C7 on the script's closing hold: 45 frames on the world view. *)
Lemma hold_phase_still_witness :
  List.length WORLD_BOUNDS = 4%nat /\
  Forall (fun f => vp_eq (viewport f) WORLD_BOUNDS)
         (new_frames (fresh 3%nat)
            (hold_phase toy_random 45 WORLD_BOUNDS [] "Initiating Scan..." 0 (fresh 3%nat))).
Proof.
  split; [reflexivity|].
  exact (proj2 (hold_phase_still nat toy_random 45 WORLD_BOUNDS [] "Initiating Scan..."%string
                  (fresh 3%nat) eq_refl)).
Defined.

(** C8: in a hold loop with shake intensity [s >= 0], the [k]-th saved
    viewport is [C] moved by the [k]-th pair of offsets; the horizontal
    offset comes from draw [2k] of the generator and the vertical one from
    draw [2k+1]; every offset lies in [-s, s]; and a second run started
    from the same generator state, even around another viewport and with
    another frame counter, shows the same sequence of offsets and leaves
    the generator in the same state. *)
Theorem hold_phase_shake :
  forall (G : Type) (random : G -> Q * G) (M : nat) (C : bounds) (s : Q)
         (hl : list string) (text : string) (st : renderer G),
    (forall g, 0 <= fst (random g) /\ fst (random g) < 1) ->
    0 <= s ->
    let st1 := hold_phase random M C hl text s st in
    let fs := new_frames st st1 in
    let offs := shake_offsets random M s (gen st) in
    List.length fs = M /\
    Forall2 (fun f o => viewport f = translate C (fst o) (snd o)) fs offs /\
    offs = map (fun r => (- s + (s - - s) * fst r, - s + (s - - s) * snd r))
               (pair_up (draws random (2 * M) (gen st))) /\
    Forall (fun o => within s (fst o) /\ within s (snd o)) offs /\
    Forall2 offset_eq (map (observed_offset C) fs) offs /\
    (forall (C' : bounds) (hl' : list string) (text' : string) (st' : renderer G),
        gen st' = gen st ->
        let st2 := hold_phase random M C' hl' text' s st' in
        Forall2 offset_eq (map (observed_offset C) fs)
                (map (observed_offset C') (new_frames st' st2)) /\
        gen st2 = gen st1).
Proof.
  intros G random M C s hl text st Hr Hs st1 fs offs.
  assert (Efs : fs = loop_frames (fun _ => C) hl text (frame_count st) 0 offs).
  { subst fs st1. apply new_frames_app. now rewrite hold_phase_eq. }
  split; [|split; [|split; [|split; [|split]]]].
  - rewrite Efs, loop_frames_length. apply shake_offsets_length.
  - rewrite Efs. apply loop_frames_translate.
  - reflexivity.
  - now apply shake_offsets_within.
  - rewrite Efs. apply loop_frames_observed.
  - intros C' hl' text' st' Hg st2.
    assert (Efs' : new_frames st' st2
                   = loop_frames (fun _ => C') hl' text' (frame_count st') 0 offs).
    { subst st2 offs. apply new_frames_app. now rewrite hold_phase_eq, Hg. }
    split.
    + rewrite Efs, Efs'.
      apply Forall2_offset_eq_trans with (l2 := offs); [apply loop_frames_observed|].
      apply Forall2_offset_eq_sym, loop_frames_observed.
    + subst st1 st2. rewrite !hold_phase_eq. simpl. now rewrite Hg.
Qed.

(** C8 on the script's hold: 45 frames with intensity 0.8, once around
    the world view and once around the sample region A, from the same
    seed. *)
Lemma hold_phase_shake_witness :
  (forall g, 0 <= fst (toy_random g) /\ fst (toy_random g) < 1) /\
  0 <= 0.8 /\
  Forall (fun o => within 0.8 (fst o) /\ within 0.8 (snd o))
         (shake_offsets toy_random HOLD_FRAMES 0.8 3%nat) /\
  Forall2 offset_eq
    (map (observed_offset WORLD_BOUNDS)
       (new_frames (fresh 3%nat)
          (hold_phase toy_random HOLD_FRAMES WORLD_BOUNDS [] "TARGET LOCKED: B" 0.8
             (fresh 3%nat))))
    (map (observed_offset region_A)
       (new_frames (mkRenderer 3%nat 55%nat [])
          (hold_phase toy_random HOLD_FRAMES region_A
             ["A"%string] "TARGET LOCKED: A" 0.8 (mkRenderer 3%nat 55%nat [])))).
Proof.
  assert (Hs : 0 <= 0.8) by discriminate.
  split; [exact toy_random_unit|]. split; [exact Hs|].
  pose proof (hold_phase_shake nat toy_random HOLD_FRAMES WORLD_BOUNDS 0.8 []
                "TARGET LOCKED: B"%string (fresh 3%nat) toy_random_unit Hs) as H.
  cbv zeta in H. destruct H as (_ & _ & _ & Hw & _ & Hd).
  split; [exact Hw|].
  exact (proj1 (Hd region_A ["A"%string]
                   "TARGET LOCKED: A"%string (mkRenderer 3%nat 55%nat []) eq_refl)).
Defined.

(** ** Frames against cues *)

Lemma vp_eq_refl (a : bounds) : vp_eq a a.
Proof. induction a; constructor; [reflexivity|assumption]. Qed.

Lemma plays_length (ok : Q -> Q -> Prop) (n : nat) (fs : list frame) (cs : list cue) :
  plays ok n fs cs -> List.length fs = List.length cs.
Proof. induction 1; simpl; congruence. Qed.

Lemma plays_app (ok : Q -> Q -> Prop) (n : nat) (fs fs' : list frame) (cs cs' : list cue) :
  plays ok n fs cs -> plays ok (n + List.length fs) fs' cs' ->
  plays ok n (fs ++ fs') (cs ++ cs').
Proof.
  induction 1 as [n|n f c fs cs Hs _ IH]; intros H'; simpl in *.
  - now rewrite Nat.add_0_r in H'.
  - constructor; [exact Hs|]. apply IH. now rewrite Nat.add_succ_r in H'.
Qed.

Lemma plays_nth (ok : Q -> Q -> Prop) (n : nat) (fs : list frame) (cs : list cue)
      (j : nat) (f : frame) :
  plays ok n fs cs -> nth_error fs j = Some f ->
  exists c, nth_error cs j = Some c /\ shows ok (n + j) f c.
Proof.
  intros H. revert j. induction H as [n|n f' c fs cs Hs _ IH]; intros j Hj.
  - destruct j; discriminate Hj.
  - destruct j as [|j]; simpl in Hj.
    + injection Hj as <-. exists c. rewrite Nat.add_0_r. split; [reflexivity|exact Hs].
    + destruct (IH j Hj) as (c' & Hc & Hs'). exists c'. split; [exact Hc|].
      now rewrite Nat.add_succ_r.
Qed.

Lemma plays_In (ok : Q -> Q -> Prop) (n : nat) (fs : list frame) (cs : list cue) (f : frame) :
  plays ok n fs cs -> In f fs -> exists c m, In c cs /\ shows ok m f c.
Proof.
  intros H Hf. apply In_nth_error in Hf. destruct Hf as [j Hj].
  destruct (plays_nth _ _ _ _ _ _ H Hj) as (c & Hc & Hs).
  exists c, (n + j)%nat. split; [eapply nth_error_In; eassumption|exact Hs].
Qed.

Lemma loop_frames_plays (ok : Q -> Q -> Prop) (view : nat -> bounds) (hl : list string)
      (text : string) (s : Q) (n a : nat) (offs : list (Q * Q)) :
  Forall (fun o => ok s (fst o) /\ ok s (snd o)) offs ->
  plays ok n (loop_frames view hl text n a offs)
        (map (fun i => mkCue (view i) s hl text) (seq a (List.length offs))).
Proof.
  intros H. revert n a. induction H as [|o offs [Hx Hy] _ IH]; intros n a; simpl.
  - constructor.
  - constructor; [|apply IH]. unfold shows; simpl. repeat split.
    exists (fst o), (snd o). repeat split; try assumption. apply vp_eq_refl.
Qed.

Lemma repeat_as_map {A : Type} (x : A) (m a : nat) : repeat x m = map (fun _ => x) (seq a m).
Proof. revert a. induction m as [|m IH]; intros a; simpl; [reflexivity|]. now rewrite <- IH. Qed.

Lemma zoom_cues_length (n : nat) (a b : bounds) (hl : list string) (text : string) :
  List.length (zoom_cues n a b hl text) = n.
Proof. unfold zoom_cues. now rewrite length_map, length_seq. Qed.

Lemma hold_cues_length (m : nat) (c : bounds) (s : Q) (hl : list string) (text : string) :
  List.length (hold_cues m c s hl text) = m.
Proof. apply repeat_length. Qed.

Lemma target_cues_length (z h : nat) (s : Q) (targets : list (string * bounds))
      (cur : bounds) (hl : list string) :
  List.length (target_cues z h s cur hl targets) = (List.length targets * (z + h))%nat.
Proof.
  revert cur hl. induction targets as [|[c r] ts IH]; intros cur hl; simpl; [reflexivity|].
  rewrite !length_app, zoom_cues_length, hold_cues_length, IH. lia.
Qed.

Lemma timeline_length (i z h o : nat) (s : Q) (targets : list (string * bounds)) :
  List.length (timeline i z h o s targets)
  = (i + List.length targets * (z + h) + z + o)%nat.
Proof.
  unfold timeline.
  rewrite !length_app, !hold_cues_length, zoom_cues_length, target_cues_length. lia.
Qed.

Lemma resolve_cons (world : GeoDataFrame) (c : string) (cs : list string)
      (targets : list (string * bounds)) :
  resolve world (c :: cs) = Some targets ->
  exists region rest,
    targets = (c, region) :: rest /\
    get_target_bounds world c default_pad = floats region /\
    List.length region = 4%nat /\
    resolve world cs = Some rest.
Proof.
  simpl. destruct (finite_view (get_target_bounds world c default_pad)) as [region|] eqn:E;
    [|discriminate].
  destruct (resolve world cs) as [rest|]; [|discriminate].
  intros H. injection H as <-. exists region, rest.
  destruct (finite_view_Some _ _ E) as [Hv Hl]. repeat split; assumption.
Qed.

Lemma resolve_names (world : GeoDataFrame) (countries : list string)
      (targets : list (string * bounds)) :
  resolve world countries = Some targets -> map fst targets = countries.
Proof.
  revert targets. induction countries as [|c cs IH]; intros targets H.
  - simpl in H. now injection H as <-.
  - destruct (resolve_cons _ _ _ _ H) as (region & rest & -> & _ & _ & Hr).
    simpl. now rewrite (IH rest Hr).
Qed.

Lemma resolve_length (world : GeoDataFrame) (countries : list string)
      (targets : list (string * bounds)) :
  resolve world countries = Some targets -> List.length targets = List.length countries.
Proof. intros H. now rewrite <- (resolve_names _ _ _ H), length_map. Qed.

Lemma resolve_regions (world : GeoDataFrame) (countries : list string)
      (targets : list (string * bounds)) :
  resolve world countries = Some targets ->
  Forall (fun t => get_target_bounds world (fst t) default_pad = floats (snd t) /\
                   List.length (snd t) = 4%nat) targets.
Proof.
  revert targets. induction countries as [|c cs IH]; intros targets H.
  - simpl in H. injection H as <-. constructor.
  - destruct (resolve_cons _ _ _ _ H) as (region & rest & -> & Hg & Hl & Hr).
    constructor; [split; assumption|now apply IH].
Qed.

Lemma last_cons {A : Type} (x d : A) (l : list A) : last (x :: l) d = last l x.
Proof.
  revert x d. induction l as [|y l IH]; intros x d; [reflexivity|].
  change (last (x :: y :: l) d) with (last (y :: l) d). now rewrite (IH y d), (IH y x).
Qed.

Lemma hold_phase_gen {G : Type} (random : G -> Q * G) (m : nat) (b : bounds)
      (hl : list string) (text : string) (s : Q) (st : renderer G) :
  gen (hold_phase random m b hl text s st) = after_draws random (2 * m) (gen st).
Proof. now rewrite hold_phase_eq. Qed.

Lemma zoom_phase_gen {G : Type} (random : G -> Q * G) (n : nat) (a b : bounds)
      (hl : list string) (text : string) (st : renderer G) :
  gen (zoom_phase random n a b hl text st) = after_draws random (2 * n) (gen st).
Proof. now rewrite zoom_phase_eq. Qed.

Section Sequencing.

Variable G : Type.
Variable random : G -> Q * G.
Variable ok : Q -> Q -> Prop.

Lemma extends_by_trans (st st' st'' : renderer G) (cs cs' : list cue) :
  extends_by ok st st' cs -> extends_by ok st' st'' cs' ->
  extends_by ok st st'' (cs ++ cs').
Proof.
  intros (fs & Hw & Hp & Hc) (fs' & Hw' & Hp' & Hc').
  exists (fs ++ fs'). split; [|split].
  - rewrite Hw', Hw. symmetry. apply app_assoc.
  - apply plays_app; [exact Hp|]. rewrite (plays_length _ _ _ _ Hp), <- Hc. exact Hp'.
  - rewrite Hc', Hc, length_app. lia.
Qed.

Lemma shake_offsets_admitted (m : nat) (s : Q) (g : G) :
  admits random ok s ->
  Forall (fun o => ok s (fst o) /\ ok s (snd o)) (shake_offsets random m s g).
Proof.
  intros H. revert g. induction m as [|m IH]; intros g.
  - constructor.
  - rewrite shake_offsets_S. constructor; [|apply IH]. simpl. split; apply H.
Qed.

Lemma hold_phase_extends (m : nat) (c : bounds) (hl : list string) (text : string) (s : Q)
      (st : renderer G) :
  admits random ok s ->
  extends_by ok st (hold_phase random m c hl text s st) (hold_cues m c s hl text).
Proof.
  intros H. rewrite hold_phase_eq. eexists. split; [reflexivity|]. simpl. split.
  - unfold hold_cues. rewrite (repeat_as_map _ m 0).
    pose proof (loop_frames_plays ok (fun _ => c) hl text s (frame_count st) 0 _
                  (shake_offsets_admitted m s (gen st) H)) as P.
    now rewrite shake_offsets_length in P.
  - now rewrite hold_cues_length.
Qed.

Lemma zoom_phase_extends (n : nat) (a b : bounds) (hl : list string) (text : string)
      (st : renderer G) :
  admits random ok 0 ->
  extends_by ok st (zoom_phase random n a b hl text st) (zoom_cues n a b hl text).
Proof.
  intros H. rewrite zoom_phase_eq. eexists. split; [reflexivity|]. simpl. split.
  - unfold zoom_cues.
    pose proof (loop_frames_plays ok
                  (fun i => interp_bounds a b (ease_in_out (Qnat i / Qnat n)))
                  hl text 0 (frame_count st) 0 _
                  (shake_offsets_admitted n 0 (gen st) H)) as P.
    rewrite shake_offsets_length in P. exact P.
  - now rewrite zoom_cues_length.
Qed.

(** *** The loops as the script runs them, on views without NaN *)

Lemma try_render_frame_floats (b : bounds) (hl : list string) (text : string) (s : Q)
      (st : renderer G) :
  try_render_frame random (floats b) hl text s st
  = Completed (render_frame random b hl text s st).
Proof.
  unfold try_render_frame, render_frame.
  destruct (uniform random (- s) s (gen st)) as [sx g1].
  destruct (uniform random (- s) s g1) as [sy g2].
  now rewrite !fat_floats.
Qed.

Lemma try_render_frame_nan (hl : list string) (text : string) (s : Q) (st : renderer G) :
  try_render_frame random nan_view hl text s st
  = Raised (mkRenderer (after_draws random 2 (gen st)) (frame_count st) (written st)).
Proof.
  unfold try_render_frame, uniform. simpl after_draws.
  destruct (random (gen st)) as [r1 g1]. simpl snd. destruct (random g1) as [r2 g2].
  reflexivity.
Qed.

Lemma try_fold_completed {S A : Type} (step : S -> A -> outcome G S) (f : S -> A -> S)
      (l : list A) (s : S) :
  (forall s' a, step s' a = Completed (f s' a)) ->
  try_fold step l s = Completed (fold_left f l s).
Proof.
  intros H. revert s. induction l as [|a l IH]; intros s; [reflexivity|].
  simpl. rewrite H. simpl. apply IH.
Qed.

Lemma try_fold_app {S A : Type} (step : S -> A -> outcome G S) (l1 l2 : list A) (s : S) :
  try_fold step (l1 ++ l2) s = and_then (try_fold step l1 s) (try_fold step l2).
Proof.
  revert s. induction l1 as [|a l1 IH]; intros s; [reflexivity|].
  simpl. destruct (step s a) as [s'|st]; simpl; [apply IH|reflexivity].
Qed.

Lemma try_hold_phase_floats (m : nat) (b : bounds) (hl : list string) (text : string)
      (s : Q) (st : renderer G) :
  try_hold_phase random m (floats b) hl text s st
  = Completed (hold_phase random m b hl text s st).
Proof.
  unfold try_hold_phase, try_range, hold_phase, for_range.
  apply (try_fold_completed _ (fun acc _ => render_frame random b hl text s acc)).
  intros s' _. apply try_render_frame_floats.
Qed.

Lemma try_zoom_phase_floats (n : nat) (a b : bounds) (hl : list string) (text : string)
      (st : renderer G) :
  try_zoom_phase random n (floats a) (floats b) hl text st
  = Completed (zoom_phase random n a b hl text st).
Proof.
  unfold try_zoom_phase, try_range, zoom_phase, for_range.
  apply (try_fold_completed _
           (fun acc i => render_frame random
                           (interp_bounds a b (ease_in_out (Qnat i / Qnat n))) hl text 0 acc)).
  intros s' i. cbn zeta. rewrite interp_view_floats. apply try_render_frame_floats.
Qed.

Variables (zoom hold : nat) (shake : Q) (world : GeoDataFrame).
Hypothesis admits_0 : admits random ok 0.
Hypothesis admits_shake : admits random ok shake.

(** One pass of the country loop toward a region without NaN. *)
Lemma country_step_resolved (cam : camera G) (cur region : bounds) (c : string) :
  current_bounds cam = floats cur ->
  get_target_bounds world c default_pad = floats region ->
  exists cam',
    country_step random zoom hold shake world cam c = Completed cam' /\
    extends_by ok (out cam) (out cam')
      (zoom_cues zoom cur region (current_highlights cam) ("Scanning: " ++ c)%string
       ++ hold_cues hold region shake (current_highlights cam ++ [c])
                    ("TARGET LOCKED: " ++ c)%string) /\
    current_bounds cam' = floats region /\
    current_highlights cam' = current_highlights cam ++ [c] /\
    gen (out cam') = after_draws random (2 * (zoom + hold)) (gen (out cam)).
Proof.
  intros Hcur Hg. unfold country_step. rewrite Hg, Hcur, try_zoom_phase_floats.
  cbn [and_then]. rewrite try_hold_phase_floats. cbn [and_then].
  eexists. split; [reflexivity|]. cbn [out current_bounds current_highlights].
  split; [|split; [reflexivity|split; [reflexivity|]]].
  - eapply extends_by_trans.
    + apply zoom_phase_extends. exact admits_0.
    + apply hold_phase_extends. exact admits_shake.
  - rewrite hold_phase_gen, zoom_phase_gen, <- after_draws_add. f_equal. lia.
Qed.

(** The country loop, from any camera state, when every target resolves. *)
Lemma country_loop_extends (countries : list string) :
  forall (targets : list (string * bounds)) (cam : camera G) (cur : bounds),
    resolve world countries = Some targets ->
    current_bounds cam = floats cur ->
    exists cam',
      try_fold (country_step random zoom hold shake world) countries cam = Completed cam' /\
      extends_by ok (out cam) (out cam')
        (target_cues zoom hold shake cur (current_highlights cam) targets) /\
      current_bounds cam' = floats (last (map snd targets) cur) /\
      current_highlights cam' = current_highlights cam ++ countries /\
      gen (out cam')
      = after_draws random (2 * (List.length countries * (zoom + hold))) (gen (out cam)).
Proof.
  induction countries as [|c cs IH]; intros targets cam cur Hres Hcur.
  - simpl in Hres. injection Hres as <-. exists cam. simpl.
    split; [reflexivity|].
    split; [|split; [exact Hcur|split; [now rewrite app_nil_r|reflexivity]]].
    exists []. simpl. rewrite app_nil_r, Nat.add_0_r. repeat split. constructor.
  - destruct (resolve_cons _ _ _ _ Hres) as (region & rest & -> & Hg & _ & Hr).
    destruct (country_step_resolved cam cur region c Hcur Hg)
      as (cam1 & E1 & X1 & B1 & H1 & G1).
    destruct (IH rest cam1 region Hr B1) as (cam' & E' & X' & B' & H' & G').
    exists cam'. split; [|split; [|split; [|split]]].
    + simpl try_fold. rewrite E1. exact E'.
    + simpl target_cues. rewrite app_assoc. rewrite H1 in X'.
      eapply extends_by_trans; [exact X1|exact X'].
    + rewrite B'. simpl map. now rewrite last_cons.
    + rewrite H', H1. now rewrite <- app_assoc.
    + rewrite G', G1, <- after_draws_add. f_equal. simpl List.length. lia.
Qed.

(** The whole sequence realises the timeline of the contract when every
    target resolves. *)
Lemma animation_sequence_extends (intro outro : nat) (countries : list string)
      (targets : list (string * bounds)) (st : renderer G) :
  resolve world countries = Some targets ->
  exists st',
    animation_sequence random intro zoom hold outro shake world countries st = Completed st' /\
    extends_by ok st st' (timeline intro zoom hold outro shake targets) /\
    gen st'
    = after_draws random
        (2 * total_frames intro zoom hold outro (List.length countries)) (gen st).
Proof.
  intros Hres. unfold animation_sequence, timeline.
  rewrite try_hold_phase_floats. cbn [and_then].
  set (st1 := hold_phase random intro WORLD_BOUNDS [] "Initiating Scan..." 0 st).
  destruct (country_loop_extends countries targets (mkCamera (floats WORLD_BOUNDS) [] st1)
              WORLD_BOUNDS Hres eq_refl) as (cam2 & E2 & X2 & B2 & H2 & G2).
  cbn [out current_highlights app] in X2, H2, G2. rewrite E2. cbn [and_then].
  rewrite B2, H2, try_zoom_phase_floats. cbn [and_then].
  rewrite try_hold_phase_floats. eexists. split; [reflexivity|]. split.
  - rewrite (resolve_names _ _ _ Hres).
    eapply extends_by_trans; [apply hold_phase_extends; exact admits_0|].
    eapply extends_by_trans; [exact X2|].
    eapply extends_by_trans; [apply zoom_phase_extends; exact admits_0|].
    apply hold_phase_extends; exact admits_0.
  - rewrite hold_phase_gen, zoom_phase_gen, G2. subst st1.
    rewrite hold_phase_gen, <- !after_draws_add. f_equal. unfold total_frames. lia.
Qed.

(** *** An unresolved target *)

Lemma try_zoom_phase_to_nan (n : nat) (v : view) (hl : list string) (text : string)
      (st : renderer G) :
  (0 < n)%nat ->
  try_zoom_phase random n v nan_view hl text st
  = Raised (mkRenderer (after_draws random 2 (gen st)) (frame_count st) (written st)).
Proof.
  intros Hn. destruct n as [|n]; [lia|].
  unfold try_zoom_phase, try_range. simpl seq. simpl try_fold.
  now rewrite interp_view_to_nan, try_render_frame_nan.
Qed.

Lemma country_step_unresolved (cam : camera G) (c : string) :
  (0 < zoom)%nat -> c <> "World"%string -> ~ In c (map name world) ->
  country_step random zoom hold shake world cam c
  = Raised (mkRenderer (after_draws random 2 (gen (out cam))) (frame_count (out cam))
                       (written (out cam))).
Proof.
  intros Hz Hn Hm. unfold country_step.
  rewrite (get_target_bounds_missing world c default_pad Hn Hm).
  now rewrite try_zoom_phase_to_nan.
Qed.

(** With a zoom of at least one frame the run ends at the first target
    that no row carries: the frames saved until then realise the timeline
    up to that target, and the call that raised has drawn twice. *)
Lemma animation_sequence_aborts (intro outro : nat) (pre : list string) (c : string)
      (targets : list (string * bounds)) (st : renderer G) :
  resolve world pre = Some targets ->
  (0 < zoom)%nat -> c <> "World"%string -> ~ In c (map name world) ->
  exists st1,
    extends_by ok st st1
      (hold_cues intro WORLD_BOUNDS 0 [] "Initiating Scan..."
       ++ target_cues zoom hold shake WORLD_BOUNDS [] targets) /\
    gen st1
    = after_draws random (2 * (intro + List.length pre * (zoom + hold))) (gen st) /\
    forall post,
      animation_sequence random intro zoom hold outro shake world (pre ++ c :: post) st
      = Raised (mkRenderer (after_draws random 2 (gen st1)) (frame_count st1) (written st1)).
Proof.
  intros Hres Hz Hn Hm. unfold animation_sequence.
  rewrite try_hold_phase_floats. cbn [and_then].
  set (st0 := hold_phase random intro WORLD_BOUNDS [] "Initiating Scan..." 0 st).
  destruct (country_loop_extends pre targets (mkCamera (floats WORLD_BOUNDS) [] st0)
              WORLD_BOUNDS Hres eq_refl) as (cam & E & X & _ & _ & Gc).
  cbn [out current_highlights] in X, Gc. exists (out cam). split; [|split].
  - eapply extends_by_trans; [apply hold_phase_extends; exact admits_0|exact X].
  - rewrite Gc. subst st0. rewrite hold_phase_gen, <- after_draws_add. f_equal. lia.
  - intros post. rewrite try_fold_app, E. cbn [and_then]. simpl try_fold.
    rewrite (country_step_unresolved cam c Hz Hn Hm). reflexivity.
Qed.

End Sequencing.

(** ** Where each phase lies in the timeline *)

Lemma nth_error_seq_0 (n i : nat) : (i < n)%nat -> nth_error (seq 0 n) i = Some i.
Proof.
  intros H. rewrite (nth_error_nth' _ 0%nat) by (now rewrite length_seq).
  now rewrite seq_nth.
Qed.

Lemma zoom_cues_nth (z : nat) (a b : bounds) (hl : list string) (text : string)
      (rest : list cue) (i : nat) (c : cue) :
  (i < z)%nat ->
  nth_error (zoom_cues z a b hl text ++ rest) i = Some c ->
  c = mkCue (lerp a b (ease_in_out (Qnat i / Qnat z))) 0 hl text.
Proof.
  intros Hi H. rewrite nth_error_app1 in H by (now rewrite zoom_cues_length).
  unfold zoom_cues in H. rewrite nth_error_map, nth_error_seq_0 in H by assumption.
  simpl in H. now injection H as <-.
Qed.

Lemma hold_cues_nth (m : nat) (v : bounds) (s : Q) (hl : list string) (text : string)
      (rest : list cue) (i : nat) (c : cue) :
  (i < m)%nat ->
  nth_error (hold_cues m v s hl text ++ rest) i = Some c ->
  c = mkCue v s hl text.
Proof.
  intros Hi H. rewrite nth_error_app1 in H by (now rewrite hold_cues_length).
  apply nth_error_In in H. unfold hold_cues in H. now apply repeat_spec in H.
Qed.

Lemma nth_error_skip {A : Type} (l1 l2 : list A) (n j : nat) :
  List.length l1 = n -> nth_error (l1 ++ l2) (n + j) = nth_error l2 j.
Proof.
  intros <-. rewrite nth_error_app2 by lia. f_equal. lia.
Qed.

(** Frame [i] of the [k]-th zoom phase (the last one being the zoom back
    out) lies at [ease(i/z)] of the way from the region before it to the
    region it zooms to. *)
Lemma phase_zoom_cue (z h : nat) (s : Q) (targets : list (string * bounds)) :
  forall (cur : bounds) (hl : list string) (k i : nat) (hl' : list string) (text' : string)
         (rest : list cue) (c : cue),
    (k <= List.length targets)%nat -> (i < z)%nat ->
    nth_error (target_cues z h s cur hl targets
               ++ zoom_cues z (last (map snd targets) cur) WORLD_BOUNDS hl' text' ++ rest)
              (k * (z + h) + i) = Some c ->
    cue_shake c = 0 /\
    cue_view c = lerp (nth k (cur :: map snd targets) WORLD_BOUNDS)
                      (nth k (map snd targets ++ [WORLD_BOUNDS]) WORLD_BOUNDS)
                      (ease_in_out (Qnat i / Qnat z)).
Proof.
  induction targets as [|[c0 r] ts IH]; intros cur hl k i hl' text' rest c Hk Hi H.
  - assert (k = 0)%nat by (simpl in Hk; lia). subst k. simpl in H.
    apply zoom_cues_nth in H; [|exact Hi]. subst c. split; reflexivity.
  - destruct k as [|k].
    + simpl target_cues in H. rewrite <- app_assoc in H. simpl Nat.mul in H. simpl Nat.add in H.
      apply zoom_cues_nth in H; [|exact Hi]. subst c. split; reflexivity.
    + simpl target_cues in H. rewrite <- !app_assoc in H.
      replace (S k * (z + h) + i)%nat with (z + (h + (k * (z + h) + i)))%nat in H by lia.
      rewrite nth_error_skip in H by apply zoom_cues_length.
      rewrite nth_error_skip in H by apply hold_cues_length.
      simpl map in H. rewrite last_cons in H.
      apply IH in H; [|simpl in Hk; lia|exact Hi]. exact H.
Qed.

(** Frame [i] of the [k]-th hold phase is on the region of target [k],
    with the shake intensity. *)
Lemma phase_hold_cue (z h : nat) (s : Q) (targets : list (string * bounds)) :
  forall (cur : bounds) (hl : list string) (k i : nat) (rest : list cue) (c : cue),
    (k < List.length targets)%nat -> (i < h)%nat ->
    nth_error (target_cues z h s cur hl targets ++ rest) (k * (z + h) + z + i) = Some c ->
    cue_shake c = s /\ cue_view c = nth k (map snd targets) WORLD_BOUNDS.
Proof.
  induction targets as [|[c0 r] ts IH]; intros cur hl k i rest c Hk Hi H.
  - simpl in Hk. lia.
  - simpl target_cues in H. rewrite <- !app_assoc in H. destruct k as [|k].
    + simpl Nat.mul in H. simpl Nat.add in H.
      rewrite nth_error_skip in H by apply zoom_cues_length.
      apply hold_cues_nth in H; [|exact Hi]. subst c. split; reflexivity.
    + replace (S k * (z + h) + z + i)%nat with (z + (h + (k * (z + h) + z + i)))%nat in H by lia.
      rewrite nth_error_skip in H by apply zoom_cues_length.
      rewrite nth_error_skip in H by apply hold_cues_length.
      apply IH in H; [|simpl in Hk; lia|exact Hi]. exact H.
Qed.

Lemma at_lerp (a b : bounds) (t : Q) (j : nat) :
  (j < 4)%nat -> at_ (lerp a b t) j = at_ a j + (at_ b j - at_ a j) * t.
Proof.
  intros H. do 4 (destruct j as [|j]; [reflexivity|]). lia.
Qed.

Lemma regions_length (world : GeoDataFrame) (countries : list string)
      (targets : list (string * bounds)) (k : nat) :
  resolve world countries = Some targets ->
  List.length (nth k (WORLD_BOUNDS :: map snd targets) WORLD_BOUNDS) = 4%nat.
Proof.
  intros H. apply resolve_regions in H. destruct k as [|k]; [reflexivity|]. simpl.
  revert k. induction H as [|t ts [_ Hl] _ IH]; intros k; simpl.
  - destruct k; reflexivity.
  - destruct k as [|k]; [exact Hl|apply IH].
Qed.

Lemma within_0 (d : Q) : within 0 d -> d == 0.
Proof. unfold within. intros [H1 H2]. lra. Qed.

Lemma vp_eq_length (a b : bounds) : vp_eq a b -> List.length a = List.length b.
Proof. induction 1; simpl; congruence. Qed.

Lemma admits_within {G : Type} (random : G -> Q * G) (s : Q) :
  (forall g, 0 <= fst (random g) /\ fst (random g) < 1) -> 0 <= s ->
  admits random within s.
Proof. intros Hr Hs g. apply uniform_within; [exact Hs|apply Hr|apply Hr]. Qed.

Lemma extends_by_fresh {G : Type} (ok : Q -> Q -> Prop) (seed : G) (st : renderer G)
      (cs : list cue) :
  extends_by ok (fresh seed) st cs -> plays ok 0 (written st) cs.
Proof. intros (fs & Hw & Hp & _). simpl in Hw, Hp. now rewrite Hw. Qed.

(** ** The sequencing contract *)

(** C1, on the code.  When every target resolves to a region without NaN,
    the animation started on a fresh renderer runs to its end and saves
    frames that realise, one for one and in file-name order, the timeline
    of the contract: the initial hold on the world view; for each target
    in input order a zoom phase from the current viewport to the target's
    region and a hold phase with shake on that region; the zoom back to the
    world view and the closing hold.  The frame count is
    [intro + K * (zoom + hold) + zoom + closing].  Frame [i] of the [k]-th
    zoom phase has every scalar at [ease(i/zoom)] of the way from the value
    held before to the value of the region zoomed to, so its first frame is
    exactly the viewport held before it; frame [i] of the [k]-th hold phase
    is the region of target [k] moved by offsets within the shake
    intensity.  When a target other than 'World' is carried by no row and
    the zoom has at least one frame, the contract is broken: the run ends
    with an error at the first frame of the zoom toward that target, with
    only the frames of the phases before it saved.  For the script's
    literals [create_video] realises the timeline with 30 intro frames,
    [ZOOM_FRAMES], [HOLD_FRAMES] and 60 closing frames, 465 frames in all,
    when its five countries resolve. *)
Theorem animation_sequence_order :
  forall (G : Type) (random : G -> Q * G) (intro zoom hold outro : nat) (shake : Q)
         (world : GeoDataFrame) (countries : list string) (seed : G),
    (forall g, 0 <= fst (random g) /\ fst (random g) < 1) ->
    0 <= shake ->
    (forall targets,
        resolve world countries = Some targets ->
        exists st,
          animation_sequence random intro zoom hold outro shake world countries (fresh seed)
          = Completed st /\
          plays within 0 (written st) (timeline intro zoom hold outro shake targets) /\
          List.length (written st)
          = (intro + List.length countries * (zoom + hold) + zoom + outro)%nat /\
          (forall k i f,
              (k <= List.length countries)%nat -> (i < zoom)%nat ->
              nth_error (written st) (intro + k * (zoom + hold) + i) = Some f ->
              forall j, (j < 4)%nat ->
                at_ (viewport f) j
                == at_ (nth k (WORLD_BOUNDS :: map snd targets) WORLD_BOUNDS) j
                   + (at_ (nth k (map snd targets ++ [WORLD_BOUNDS]) WORLD_BOUNDS) j
                      - at_ (nth k (WORLD_BOUNDS :: map snd targets) WORLD_BOUNDS) j)
                     * ease_in_out (Qnat i / Qnat zoom)) /\
          (forall k f,
              (k <= List.length countries)%nat -> (0 < zoom)%nat ->
              nth_error (written st) (intro + k * (zoom + hold)) = Some f ->
              vp_eq (viewport f) (nth k (WORLD_BOUNDS :: map snd targets) WORLD_BOUNDS)) /\
          (forall k i f,
              (k < List.length countries)%nat -> (i < hold)%nat ->
              nth_error (written st) (intro + k * (zoom + hold) + zoom + i) = Some f ->
              exists dx dy,
                within shake dx /\ within shake dy /\
                vp_eq (viewport f)
                      (translate (nth k (map snd targets) WORLD_BOUNDS) dx dy))) /\
    (forall pre c post,
        countries = pre ++ c :: post ->
        (exists targets, resolve world pre = Some targets) ->
        c <> "World"%string -> ~ In c (map name world) -> (0 < zoom)%nat ->
        exists st,
          animation_sequence random intro zoom hold outro shake world countries (fresh seed)
          = Raised st /\
          List.length (written st) = (intro + List.length pre * (zoom + hold))%nat) /\
    (forall targets,
        resolve world DATA_COUNTRIES = Some targets ->
        exists st,
          create_video random world seed = Completed st /\
          plays within 0 (written st) (timeline 30 ZOOM_FRAMES HOLD_FRAMES 60 0.8 targets) /\
          List.length (written st) = (30 + 5 * (25 + 45) + 25 + 60)%nat).
Proof.
  intros G random intro zoom hold outro shake world countries seed Hr Hs.
  assert (A0 : admits random within 0) by (apply admits_within; [exact Hr|discriminate]).
  assert (As : forall s, 0 <= s -> admits random within s)
    by (intros s Hs'; now apply admits_within).
  assert (Run : forall i z h o s cs targets, 0 <= s ->
            resolve world cs = Some targets ->
            exists st,
              animation_sequence random i z h o s world cs (fresh seed) = Completed st /\
              plays within 0 (written st) (timeline i z h o s targets) /\
              List.length (written st) = (i + List.length cs * (z + h) + z + o)%nat).
  { intros i z h o s cs targets Hs' Hres.
    destruct (animation_sequence_extends G random within z h s world A0 (As s Hs')
                i o cs targets (fresh seed) Hres) as (st & E & X & _).
    apply extends_by_fresh in X. exists st. split; [exact E|]. split; [exact X|].
    rewrite (plays_length _ _ _ _ X), timeline_length.
    now rewrite (resolve_length _ _ _ Hres). }
  split; [|split].
  - intros targets Hres.
    destruct (Run intro zoom hold outro shake countries targets Hs Hres) as (st & E & P & L).
    pose proof (resolve_length _ _ _ Hres) as HK.
    assert (Zoom : forall k i f,
               (k <= List.length countries)%nat -> (i < zoom)%nat ->
               nth_error (written st) (intro + k * (zoom + hold) + i) = Some f ->
               forall j, (j < 4)%nat ->
                 at_ (viewport f) j
                 == at_ (nth k (WORLD_BOUNDS :: map snd targets) WORLD_BOUNDS) j
                    + (at_ (nth k (map snd targets ++ [WORLD_BOUNDS]) WORLD_BOUNDS) j
                       - at_ (nth k (WORLD_BOUNDS :: map snd targets) WORLD_BOUNDS) j)
                      * ease_in_out (Qnat i / Qnat zoom)).
    { intros k i f Hk Hi Hf j Hj.
      destruct (plays_nth _ _ _ _ _ _ P Hf)
        as (c & Hc & _ & _ & _ & dx & dy & Hdx & Hdy & Hv).
      unfold timeline in Hc. rewrite <- Nat.add_assoc in Hc.
      rewrite nth_error_skip in Hc by apply hold_cues_length.
      apply phase_zoom_cue in Hc; [|now rewrite HK|exact Hi].
      destruct Hc as (Hs0 & Hview).
      rewrite Hs0 in Hdx, Hdy. apply within_0 in Hdx. apply within_0 in Hdy.
      rewrite Hview in Hv.
      rewrite (vp_eq_at _ _ j Hv), at_translate, at_lerp by assumption.
      unfold bounds. destruct (j <? 2)%nat; [rewrite Hdx|rewrite Hdy]; ring. }
    exists st. split; [exact E|]. split; [exact P|]. split; [exact L|].
    split; [exact Zoom|]. split.
    + intros k f Hk Hz Hf. apply vp_eq_pointwise.
      * destruct (plays_nth _ _ _ _ _ _ P Hf)
          as (c & _ & _ & _ & _ & dx & dy & _ & _ & Hv).
        now rewrite (vp_eq_length _ _ Hv).
      * now apply (regions_length world countries).
      * intros j Hj. rewrite <- (Nat.add_0_r (intro + k * (zoom + hold))) in Hf.
        rewrite (Zoom k 0%nat f Hk Hz Hf j Hj).
        assert (E0 : ease_in_out (Qnat 0 / Qnat zoom) == 0).
        { unfold ease_in_out, Qdiv. change (Qnat 0) with 0. ring. }
        rewrite E0. ring.
    + intros k i f Hk Hi Hf.
      destruct (plays_nth _ _ _ _ _ _ P Hf)
        as (c & Hc & _ & _ & _ & dx & dy & Hdx & Hdy & Hv).
      unfold timeline in Hc. rewrite <- !Nat.add_assoc in Hc.
      rewrite nth_error_skip in Hc by apply hold_cues_length.
      rewrite !Nat.add_assoc in Hc.
      apply phase_hold_cue in Hc; [|now rewrite HK|exact Hi].
      destruct Hc as (Hsh & Hview). rewrite Hsh in Hdx, Hdy. rewrite Hview in Hv.
      exists dx, dy. split; [exact Hdx|]. split; [exact Hdy|exact Hv].
  - intros pre c post -> [targets Hres] Hn Hm Hz.
    destruct (animation_sequence_aborts G random within zoom hold shake world A0 (As shake Hs)
                intro outro pre c targets (fresh seed) Hres Hz Hn Hm)
      as (st1 & X & _ & E).
    eexists. split; [exact (E post)|]. simpl written.
    apply extends_by_fresh in X. rewrite (plays_length _ _ _ _ X).
    rewrite length_app, hold_cues_length, target_cues_length.
    now rewrite (resolve_length _ _ _ Hres).
  - intros targets Hres.
    destruct (Run 30%nat ZOOM_FRAMES HOLD_FRAMES 60%nat 0.8 DATA_COUNTRIES targets)
      as (st & E & P & L); [discriminate|exact Hres|].
    exists st. split; [exact E|]. split; [exact P|exact L].
Qed.

(** C1 on the end-to-end scenario, with 1 intro frame, 2 zoom frames,
    2 hold frames and 1 closing frame: with targets A (found) and B (found
    nowhere) the run ends with an error after 1 + (2 + 2) = 5 frames, where
    the contract counts 1 + 2 * (2 + 2) + 2 + 1 = 12. *)
Lemma animation_sequence_order_witness :
  (forall g, 0 <= fst (toy_random g) /\ fst (toy_random g) < 1) /\
  0 <= 0.8 /\
  exists st,
    animation_sequence toy_random 1 2 2 1 0.8 toy_world ["A"; "B"]%string (fresh 3%nat)
    = Raised st /\
    List.length (written st) = 5%nat.
Proof.
  assert (Hs : 0 <= 0.8) by discriminate.
  split; [exact toy_random_unit|]. split; [exact Hs|].
  apply (proj1 (proj2 (animation_sequence_order nat toy_random 1 2 2 1 0.8 toy_world
                         ["A"; "B"]%string 3%nat toy_random_unit Hs))
               ["A"%string] "B"%string []).
  - reflexivity.
  - eexists. vm_compute. reflexivity.
  - discriminate.
  - simpl. intros [C|[C|[C|[]]]]; discriminate C.
  - lia.
Defined.
(** ** Non-degenerate viewports *)

Lemma proper_vp_eq (a b : bounds) : vp_eq a b -> proper b -> proper a.
Proof.
  intros H [Hx Hy]. unfold proper.
  rewrite (vp_eq_at _ _ 0 H), (vp_eq_at _ _ 1 H), (vp_eq_at _ _ 2 H), (vp_eq_at _ _ 3 H).
  split; assumption.
Qed.

Lemma translate_proper (c : bounds) (dx dy : Q) : proper c -> proper (translate c dx dy).
Proof. intros [Hx Hy]. unfold proper, translate, at_ in *. simpl. split; lra. Qed.

(** A mix of two positive extents is positive. *)
Lemma mix_pos (wa wb t : Q) : 0 < wa -> 0 < wb -> 0 <= t -> t <= 1 -> 0 < wa * (1 - t) + wb * t.
Proof.
  intros Ha Hb H0 H1.
  assert (A : 0 <= wa * (1 - t)) by (apply Qmult_le_0_compat; lra).
  assert (B : 0 <= wb * t) by (apply Qmult_le_0_compat; lra).
  destruct (Qlt_le_dec 0 t) as [Ht|Ht].
  - assert (0 < wb * t) by (apply Qmult_lt_0_compat; assumption). lra.
  - assert (E : t == 0) by lra. rewrite E.
    setoid_replace (wa * (1 - 0) + wb * 0) with wa by ring. exact Ha.
Qed.

Lemma interp_bounds_proper (a b : bounds) (t : Q) :
  proper a -> proper b -> 0 <= t -> t <= 1 -> proper (interp_bounds a b t).
Proof.
  intros [Hax Hay] [Hbx Hby] H0 H1. unfold proper.
  rewrite !at_interp_bounds by lia. split.
  - pose proof (mix_pos (at_ a 1 - at_ a 0) (at_ b 1 - at_ b 0) t) as M.
    assert (P : 0 < (at_ a 1 - at_ a 0) * (1 - t) + (at_ b 1 - at_ b 0) * t)
      by (apply M; lra).
    setoid_replace ((at_ a 1 - at_ a 0) * (1 - t) + (at_ b 1 - at_ b 0) * t)
      with (at_ a 1 + (at_ b 1 - at_ a 1) * t - (at_ a 0 + (at_ b 0 - at_ a 0) * t)) in P
      by ring.
    lra.
  - pose proof (mix_pos (at_ a 3 - at_ a 2) (at_ b 3 - at_ b 2) t) as M.
    assert (P : 0 < (at_ a 3 - at_ a 2) * (1 - t) + (at_ b 3 - at_ b 2) * t)
      by (apply M; lra).
    setoid_replace ((at_ a 3 - at_ a 2) * (1 - t) + (at_ b 3 - at_ b 2) * t)
      with (at_ a 3 + (at_ b 3 - at_ a 3) * t - (at_ a 2 + (at_ b 2 - at_ a 2) * t)) in P
      by ring.
    lra.
Qed.

Lemma zoom_cues_proper (n : nat) (a b : bounds) (hl : list string) (text : string) :
  proper a -> proper b -> Forall (fun c => proper (cue_view c)) (zoom_cues n a b hl text).
Proof.
  intros Ha Hb. unfold zoom_cues. apply Forall_forall. intros c Hc.
  apply in_map_iff in Hc. destruct Hc as (i & <- & Hi). apply in_seq in Hi. simpl.
  destruct (progress_unit i n) as [P0 P1]; [lia|].
  destruct (ease_in_out_unit (Qnat i / Qnat n)) as [E0 E1]; [exact P0|lra|].
  change (proper (interp_bounds a b (ease_in_out (Qnat i / Qnat n)))).
  now apply interp_bounds_proper.
Qed.

Lemma hold_cues_proper (m : nat) (c : bounds) (s : Q) (hl : list string) (text : string) :
  proper c -> Forall (fun q => proper (cue_view q)) (hold_cues m c s hl text).
Proof.
  intros Hc. apply Forall_forall. intros q Hq. apply repeat_spec in Hq. now subst q.
Qed.

Lemma target_cues_proper (z h : nat) (s : Q) (targets : list (string * bounds)) :
  Forall (fun t => proper (snd t)) targets ->
  forall (cur : bounds) (hl : list string),
    proper cur ->
    Forall (fun c => proper (cue_view c)) (target_cues z h s cur hl targets) /\
    proper (last (map snd targets) cur).
Proof.
  induction 1 as [|[c r] ts Hr _ IH]; intros cur hl Hcur.
  - split; [constructor|exact Hcur].
  - simpl in Hr. destruct (IH r (hl ++ [c]) Hr) as [IH1 IH2]. split.
    + simpl. rewrite !Forall_app. repeat split.
      * now apply zoom_cues_proper.
      * now apply hold_cues_proper.
      * exact IH1.
    + simpl map. now rewrite last_cons.
Qed.

Lemma timeline_proper (i z h o : nat) (s : Q) (targets : list (string * bounds)) :
  Forall (fun t => proper (snd t)) targets ->
  Forall (fun c => proper (cue_view c)) (timeline i z h o s targets).
Proof.
  intros H. pose proof WORLD_BOUNDS_proper as HW.
  destruct (target_cues_proper z h s targets H WORLD_BOUNDS [] HW) as [H1 H2].
  unfold timeline. rewrite !Forall_app. repeat split.
  - now apply hold_cues_proper.
  - exact H1.
  - now apply zoom_cues_proper.
  - now apply hold_cues_proper.
Qed.

(** The box around well-formed rows is well formed. *)
Lemma union_box_ordered (r : row) (rs : GeoDataFrame) (minx miny maxx maxy : Q) :
  well_formed (r :: rs) ->
  union_box r rs = (minx, miny, maxx, maxy) ->
  minx <= maxx /\ miny <= maxy.
Proof.
  intros Hwf H. unfold union_box in H. inversion Hwf as [|? ? Hr Hrs]; subst.
  clear Hwf. revert H Hr.
  generalize (geom_minx r) (geom_miny r) (geom_maxx r) (geom_maxy r).
  induction Hrs as [|r' rs [Hx' Hy'] _ IH]; intros a b c d H [Hx Hy].
  - simpl in H. injection H as -> -> -> ->. split; assumption.
  - simpl in H. apply IH in H; [exact H|]. split.
    + apply Qle_trans with a; [apply Q.le_min_l|].
      apply Qle_trans with c; [exact Hx|apply Q.le_max_l].
    + apply Qle_trans with b; [apply Q.le_min_l|].
      apply Qle_trans with d; [exact Hy|apply Q.le_max_l].
Qed.

Lemma total_bounds_ordered (rows : GeoDataFrame) (minx miny maxx maxy : Q) :
  well_formed rows ->
  total_bounds rows = Ok (Fin minx, Fin miny, Fin maxx, Fin maxy) ->
  minx <= maxx /\ miny <= maxy.
Proof.
  intros Hwf H. destruct (total_bounds_finite _ _ _ _ _ H) as (r & rs & -> & Hu).
  exact (union_box_ordered r rs _ _ _ _ Hwf Hu).
Qed.

Lemma select_name_well_formed (gdf : GeoDataFrame) (country_name : string) :
  well_formed gdf -> well_formed (select_name gdf country_name).
Proof.
  unfold well_formed, select_name. rewrite !Forall_forall. intros H r Hr.
  apply filter_In in Hr. apply H, Hr.
Qed.

Lemma floats_inj (a b : bounds) : floats a = floats b -> a = b.
Proof.
  revert b. induction a as [|x a IH]; intros [|y b] H; try discriminate H; [reflexivity|].
  simpl in H. injection H as -> H. now rewrite (IH b H).
Qed.

(** The three ways a name resolves. *)
Lemma get_target_bounds_cases (gdf : GeoDataFrame) (country_name : string) (pad : Q) :
  get_target_bounds gdf country_name pad = floats WORLD_BOUNDS \/
  get_target_bounds gdf country_name pad = nan_view \/
  exists minx miny maxx maxy,
    country_name <> "World"%string /\
    total_bounds (select_name gdf country_name)
    = Ok (Fin minx, Fin miny, Fin maxx, Fin maxy) /\
    get_target_bounds gdf country_name pad
    = floats (box ((minx + maxx) / 2) ((miny + maxy) / 2)
                  (force_ratio (padded_size minx miny maxx maxy pad))).
Proof.
  destruct (String.eqb_spec country_name "World") as [E|Hn].
  - left. subst. reflexivity.
  - destruct (select_name gdf country_name) as [|r rs] eqn:Es.
    + right. left. unfold get_target_bounds.
      destruct (String.eqb_spec country_name "World"); [contradiction|]. now rewrite Es.
    + right. right. destruct (total_bounds_cons r rs) as (a & b & c & d & _ & Ht).
      exists a, b, c, d. split; [exact Hn|]. split; [exact Ht|].
      apply get_target_bounds_found; [exact Hn|]. now rewrite Es.
Qed.

(** With a positive padding every region resolved from well-formed rows
    is non-degenerate. *)
Lemma get_target_bounds_proper (gdf : GeoDataFrame) (country_name : string) (pad : Q)
      (region : bounds) :
  well_formed gdf -> 0 < pad ->
  get_target_bounds gdf country_name pad = floats region -> proper region.
Proof.
  intros Hwf Hp Hg.
  destruct (get_target_bounds_cases gdf country_name pad)
    as [E|[E|(minx & miny & maxx & maxy & Hn & Ht & E)]]; rewrite E in Hg.
  - apply floats_inj in Hg. subst region. exact WORLD_BOUNDS_proper.
  - destruct region as [|? [|? [|? [|? [|]]]]]; discriminate Hg.
  - apply floats_inj in Hg. subst region.
    destruct (total_bounds_ordered _ _ _ _ _ (select_name_well_formed _ _ Hwf) Ht) as [Hx Hy].
    unfold padded_size.
    destruct (force_ratio_spec (maxx - minx + pad) (maxy - miny + pad))
      as (_ & _ & _ & Hw & Hh); [lra|lra|].
    destruct (force_ratio (maxx - minx + pad, maxy - miny + pad)) as [w' h'].
    simpl in Hw, Hh. unfold proper, box, at_. simpl. rewrite !half_eq. split; lra.
Qed.

Lemma resolve_proper (world : GeoDataFrame) (countries : list string)
      (targets : list (string * bounds)) :
  well_formed world -> resolve world countries = Some targets ->
  Forall (fun t => proper (snd t)) targets.
Proof.
  intros Hwf H. apply resolve_regions in H.
  induction H as [|t ts [Hg _] _ IH]; constructor; [|exact IH].
  apply (get_target_bounds_proper world (fst t) default_pad); [exact Hwf|reflexivity|exact Hg].
Qed.

(** C9: an interpolation step between two non-degenerate viewports, at
    any progress in [0,1], and a jitter translation of a non-degenerate
    viewport give a non-degenerate viewport; hence, when every target
    resolves to a non-degenerate region, the animation runs to its end and
    every frame it saves has max-x > min-x and max-y > min-y; for
    [create_video] this holds whenever the rows of the lookup source are
    well formed and its five countries resolve. *)
Theorem viewports_stay_proper :
  (forall (A B : bounds) (t : Q),
      proper A -> proper B -> 0 <= t -> t <= 1 -> proper (interp_bounds A B t)) /\
  (forall (C : bounds) (dx dy : Q), proper C -> proper (translate C dx dy)) /\
  (forall (G : Type) (random : G -> Q * G) (intro zoom hold outro : nat) (shake : Q)
          (world : GeoDataFrame) (countries : list string)
          (targets : list (string * bounds)) (st : renderer G),
      resolve world countries = Some targets ->
      Forall (fun t => proper (snd t)) targets ->
      exists st',
        animation_sequence random intro zoom hold outro shake world countries st
        = Completed st' /\
        Forall (fun f => proper (viewport f)) (new_frames st st')) /\
  (forall (G : Type) (random : G -> Q * G) (world : GeoDataFrame)
          (targets : list (string * bounds)) (seed : G),
      well_formed world ->
      resolve world DATA_COUNTRIES = Some targets ->
      exists st',
        create_video random world seed = Completed st' /\
        Forall (fun f => proper (viewport f)) (written st')).
Proof.
  assert (Main : forall (G : Type) (random : G -> Q * G) (intro zoom hold outro : nat)
                        (shake : Q) (world : GeoDataFrame) (countries : list string)
                        (targets : list (string * bounds)) (st : renderer G),
             resolve world countries = Some targets ->
             Forall (fun t => proper (snd t)) targets ->
             exists st',
               animation_sequence random intro zoom hold outro shake world countries st
               = Completed st' /\
               Forall (fun f => proper (viewport f)) (new_frames st st')).
  { intros G random intro zoom hold outro shake world countries targets st Hres Hc.
    destruct (animation_sequence_extends G random (fun _ _ => True) zoom hold shake world
                (fun _ => I) (fun _ => I) intro outro countries targets st Hres)
      as (st' & E & (fs & Hw & Hp & _) & _).
    exists st'. split; [exact E|].
    rewrite (new_frames_app _ _ _ Hw).
    pose proof (timeline_proper intro zoom hold outro shake targets Hc) as Ht.
    rewrite Forall_forall in Ht. apply Forall_forall. intros f Hf.
    destruct (plays_In _ _ _ _ _ Hp Hf) as (c & m & Hc' & _ & _ & _ & dx & dy & _ & _ & Hv).
    apply (proper_vp_eq _ _ Hv). apply translate_proper. now apply Ht. }
  split; [exact interp_bounds_proper|]. split; [exact translate_proper|].
  split; [exact Main|].
  intros G random world targets seed Hwf Hres. unfold create_video.
  destruct (Main G random 30%nat ZOOM_FRAMES HOLD_FRAMES 60%nat 0.8 world DATA_COUNTRIES
              targets (mkRenderer seed 0%nat []) Hres (resolve_proper _ _ _ Hwf Hres))
    as (st' & E & H).
  exists st'. split; [exact E|]. exact H.
Qed.

(** C9 on the sample atlas, whose rows are well formed and carry the five
    countries of the script. *)
Lemma viewports_stay_proper_witness :
  well_formed atlas /\
  exists targets st,
    resolve atlas DATA_COUNTRIES = Some targets /\
    create_video toy_random atlas 3%nat = Completed st /\
    Forall (fun f => proper (viewport f)) (written st).
Proof.
  assert (H : well_formed atlas).
  { unfold well_formed, atlas. repeat constructor; simpl; discriminate. }
  assert (R : exists targets, resolve atlas DATA_COUNTRIES = Some targets)
    by (eexists; vm_compute; reflexivity).
  destruct R as [targets R].
  destruct (proj2 (proj2 (proj2 viewports_stay_proper)) nat toy_random atlas targets 3%nat H R)
    as (st & E & P).
  split; [exact H|]. exists targets, st. repeat split; assumption.
Defined.

(** * Further properties of the code *)

(** ** The easing curve beyond its end points *)

Lemma ease_in_out_strictly_monotone (a b : Q) :
  0 <= a -> a < b -> b <= 1 -> ease_in_out a < ease_in_out b.
Proof.
  intros Ha Hab Hb.
  assert (H1 : 0 <= a * (1 - a)) by (apply Qmult_le_0_compat; lra).
  assert (H2 : 0 <= b * (1 - b)) by (apply Qmult_le_0_compat; lra).
  assert (H3 : 0 <= a * (1 - b)) by (apply Qmult_le_0_compat; lra).
  assert (H4 : 0 < b * (1 - a)) by (apply Qmult_lt_0_compat; lra).
  assert (H : 0 < (b - a) * ((a * (1 - a) + b * (1 - b)) * 2 + (a * (1 - b) + b * (1 - a))))
    by (apply Qmult_lt_0_compat; lra).
  rewrite <- ease_in_out_difference in H. lra.
Qed.

(** X1: on [0,1] the easing curve stays in [0,1] and is strictly
    increasing, and it is symmetric about its midpoint:
    [ease(1 - t) = 1 - ease(t)] for every [t], so [ease(1/2) = 1/2]. *)
Theorem ease_in_out_shape :
  (forall t, 0 <= t -> t <= 1 -> 0 <= ease_in_out t /\ ease_in_out t <= 1) /\
  (forall a b, 0 <= a -> a < b -> b <= 1 -> ease_in_out a < ease_in_out b) /\
  (forall t, ease_in_out (1 - t) == 1 - ease_in_out t) /\
  ease_in_out (1 / 2) == 1 / 2.
Proof.
  split; [exact ease_in_out_unit|]. split; [exact ease_in_out_strictly_monotone|].
  split; [|reflexivity]. intros t. unfold ease_in_out. ring.
Qed.

(** X1 between a quarter and three quarters of the way. *)
Lemma ease_in_out_shape_witness : ease_in_out (1 / 4) < ease_in_out (3 / 4).
Proof.
  apply (proj1 (proj2 ease_in_out_shape)); reflexivity || discriminate.
Defined.

(** ** The forced ratio *)

Lemma Qle_bool_false (x y : Q) : Qle_bool x y = false -> y < x.
Proof.
  intros E. apply Qnot_le_lt. intros C. apply Qle_bool_iff in C. congruence.
Qed.

Lemma ratio_cross (w h : Q) : 0 < h -> (w / h <= target_ratio <-> w <= h * target_ratio).
Proof.
  intros Hh. split; intros H.
  - setoid_replace w with (w / h * h) by (field; lra).
    rewrite (Qmult_comm h). apply Qmult_le_compat_r; lra.
  - apply Qle_shift_div_r; [exact Hh|]. now rewrite Qmult_comm.
Qed.

Lemma over_ratio (w h : Q) : h * target_ratio <= w <-> h <= w / target_ratio.
Proof.
  pose proof target_ratio_pos as HR. split; intros H.
  - apply Qle_shift_div_l; assumption.
  - setoid_replace w with (w / target_ratio * target_ratio) by (field; lra).
    apply Qmult_le_compat_r; lra.
Qed.

(** The size after lines 60-65, in closed form. *)
Lemma force_ratio_max (w h : Q) :
  0 < h ->
  fst (force_ratio (w, h)) == Qmax w (h * target_ratio) /\
  snd (force_ratio (w, h)) == Qmax h (w / target_ratio).
Proof.
  intros Hh. unfold force_ratio.
  destruct (Qle_bool (w / h) target_ratio) eqn:E; simpl.
  - apply Qle_bool_iff in E. apply ratio_cross in E; [|exact Hh].
    split; [now rewrite Q.max_r|]. rewrite Q.max_l; [reflexivity|].
    pose proof target_ratio_pos as HR. apply Qle_shift_div_r; assumption.
  - apply Qle_bool_false in E.
    assert (E' : h * target_ratio <= w).
    { apply Qlt_le_weak. apply Qnot_le_lt. intros C.
      apply (ratio_cross w h Hh) in C. lra. }
    split; [now rewrite Q.max_l|]. rewrite Q.max_r; [reflexivity|].
    now apply over_ratio.
Qed.

(** X2: for a region of positive size, forcing the ratio keeps one of the
    two sides as it is and grows the other ([w' = max(w, h R)],
    [h' = max(h, w / R)]); the result is the smallest size of ratio [R]
    that covers the region; and forcing the ratio a second time changes
    nothing. *)
Theorem force_ratio_minimal :
  forall w h : Q,
    0 < w -> 0 < h ->
    let w' := fst (force_ratio (w, h)) in
    let h' := snd (force_ratio (w, h)) in
    (w' == Qmax w (h * target_ratio) /\ h' == Qmax h (w / target_ratio)) /\
    (w' == w \/ h' == h) /\
    (forall W H, W == H * target_ratio -> w <= W -> h <= H -> w' <= W /\ h' <= H) /\
    (fst (force_ratio (w', h')) == w' /\ snd (force_ratio (w', h')) == h').
Proof.
  intros w h Hw Hh w' h'. pose proof target_ratio_pos as HR.
  destruct (force_ratio_spec w h Hw Hh) as (Hr & _ & _ & Hpw & Hph).
  fold w' h' in Hr, Hpw, Hph.
  split; [now apply force_ratio_max|]. split; [|split].
  - subst w' h'. unfold force_ratio.
    destruct (Qle_bool (w / h) target_ratio); simpl; [right|left]; reflexivity.
  - intros W H HWH HwW HhH. subst w' h'. unfold force_ratio.
    destruct (Qle_bool (w / h) target_ratio); simpl.
    + split; [|exact HhH]. rewrite HWH. apply Qmult_le_compat_r; lra.
    + split; [exact HwW|]. apply Qle_shift_div_r; [exact HR|]. now rewrite <- HWH.
  - unfold force_ratio.
    assert (E : Qle_bool (w' / h') target_ratio = true).
    { apply Qle_bool_iff. apply ratio_cross; [exact Hph|]. rewrite Hr. apply Qle_refl. }
    rewrite E. simpl. split; [now rewrite Hr|reflexivity].
Qed.

(** X2 on a 25 x 25 region, which is too wide for 9:16. *)
Lemma force_ratio_minimal_witness :
  fst (force_ratio (25, 25)) == 25 \/ snd (force_ratio (25, 25)) == 25.
Proof.
  apply (proj1 (proj2 (force_ratio_minimal 25 25 eq_refl eq_refl))).
Defined.

(** ** The padding *)

Lemma contains_refl (b : bounds) : contains b b.
Proof. unfold contains. repeat split; apply Qle_refl. Qed.

Lemma Qmax_le_compat (a b c d : Q) : a <= b -> c <= d -> Qmax a c <= Qmax b d.
Proof.
  intros Hab Hcd. apply Q.max_lub.
  - apply Qle_trans with b; [exact Hab|apply Q.le_max_l].
  - apply Qle_trans with d; [exact Hcd|apply Q.le_max_r].
Qed.

(** X3: on well-formed rows and with a positive padding, for a name that
    resolves ('World' or a name some row carries) a larger padding gives a
    region that contains the region of the smaller padding; and the
    region of a found name is at least [pad] wide and [pad / R] high, so
    the camera never zooms in closer than that. *)
Theorem get_target_bounds_pad_monotone :
  forall (gdf : GeoDataFrame) (country_name : string) (pad pad' : Q),
    well_formed gdf -> 0 < pad -> pad <= pad' ->
    country_name = "World"%string \/ In country_name (map name gdf) ->
    exists region region',
      get_target_bounds gdf country_name pad = floats region /\
      get_target_bounds gdf country_name pad' = floats region' /\
      contains region' region /\
      (country_name <> "World"%string ->
       pad <= width region /\ pad / target_ratio <= height region).
Proof.
  intros gdf country_name pad pad' Hwf Hp Hpp Hres. pose proof target_ratio_pos as HR.
  destruct (String.eqb_spec country_name "World") as [E|Hn].
  - subst. exists WORLD_BOUNDS, WORLD_BOUNDS.
    split; [reflexivity|]. split; [reflexivity|]. split; [apply contains_refl|].
    intros C. contradiction.
  - destruct Hres as [E|Hin]; [contradiction|].
    destruct (select_name gdf country_name) as [|r rs] eqn:Es;
      [now apply select_name_present in Hin|].
    destruct (total_bounds_cons r rs) as (minx & miny & maxx & maxy & _ & Ht).
    rewrite <- Es in Ht.
    destruct (total_bounds_ordered _ _ _ _ _ (select_name_well_formed _ _ Hwf) Ht) as [Hx Hy].
    exists (box ((minx + maxx) / 2) ((miny + maxy) / 2)
                (force_ratio (padded_size minx miny maxx maxy pad))),
           (box ((minx + maxx) / 2) ((miny + maxy) / 2)
                (force_ratio (padded_size minx miny maxx maxy pad'))).
    split; [now apply get_target_bounds_found|].
    split; [now apply get_target_bounds_found|].
    unfold padded_size.
    destruct (force_ratio_max (maxx - minx + pad) (maxy - miny + pad)) as [F1 F2]; [lra|].
    destruct (force_ratio_max (maxx - minx + pad') (maxy - miny + pad')) as [G1 G2]; [lra|].
    destruct (force_ratio (maxx - minx + pad, maxy - miny + pad)) as [w1 h1].
    destruct (force_ratio (maxx - minx + pad', maxy - miny + pad')) as [w2 h2].
    simpl in F1, F2, G1, G2. split.
    + apply box_contains.
      * rewrite F1, G1. apply Qmax_le_compat; [lra|]. apply Qmult_le_compat_r; lra.
      * rewrite F2, G2. apply Qmax_le_compat; [lra|]. apply Qdiv_le_mono; lra.
    + intros _.
      destruct (box_geometry ((minx + maxx) / 2) ((miny + maxy) / 2) w1 h1) as (Gw & Gh & _).
      rewrite Gw, Gh, F1, F2. split.
      * apply Qle_trans with (maxx - minx + pad); [lra|apply Q.le_max_l].
      * apply Qle_trans with ((maxx - minx + pad) / target_ratio); [|apply Q.le_max_r].
        apply Qdiv_le_mono; lra.
Qed.

(** X3 on the sample source: padding 20 against the default 15. *)
Lemma get_target_bounds_pad_monotone_witness :
  well_formed toy_world /\
  exists region region',
    get_target_bounds toy_world "A" default_pad = floats region /\
    get_target_bounds toy_world "A" 20 = floats region' /\
    contains region' region.
Proof.
  assert (H : well_formed toy_world).
  { unfold well_formed, toy_world. repeat constructor; simpl; discriminate. }
  assert (Hle : default_pad <= 20) by discriminate.
  assert (Hin : "A"%string = "World"%string \/ In "A"%string (map name toy_world))
    by (right; left; reflexivity).
  destruct (get_target_bounds_pad_monotone toy_world "A" default_pad 20 H eq_refl Hle Hin)
    as (region & region' & E1 & E2 & Hc & _).
  split; [exact H|]. exists region, region'.
  split; [exact E1|]. split; [exact E2|exact Hc].
Defined.

(** ** The path of a zoom *)

Lemma zoom_phase_frames {G : Type} (random : G -> Q * G) (N : nat) (A B : bounds)
      (hl : list string) (text : string) (st : renderer G) :
  new_frames st (zoom_phase random N A B hl text st)
  = loop_frames (fun i => interp_bounds A B (ease_in_out (Qnat i / Qnat N)))
                hl text (frame_count st) 0 (shake_offsets random N 0 (gen st)).
Proof. apply new_frames_app. now rewrite zoom_phase_eq. Qed.

(** Frame [i] of a zoom loop, scalar by scalar. *)
Lemma zoom_frame_at {G : Type} (random : G -> Q * G) (N : nat) (A B : bounds)
      (hl : list string) (text : string) (st : renderer G) (i : nat) (f : frame) :
  nth_error (new_frames st (zoom_phase random N A B hl text st)) i = Some f ->
  (i < N)%nat /\
  forall k, (k < 4)%nat ->
    at_ (viewport f) k == at_ A k + (at_ B k - at_ A k) * ease_in_out (Qnat i / Qnat N).
Proof.
  intros Hf. split.
  - assert (L : (i < List.length (new_frames st (zoom_phase random N A B hl text st)))%nat)
      by (apply nth_error_Some; rewrite Hf; discriminate).
    now rewrite zoom_phase_frames, loop_frames_length, shake_offsets_length in L.
  - intros k Hk. rewrite zoom_phase_frames in Hf.
    destruct (loop_frames_nth _ _ _ _ _ _ _ _ Hf) as (o & Ho & ->).
    pose proof (shake_offsets_still random N (gen st)) as Hz.
    rewrite Forall_forall in Hz. destruct (Hz o (nth_error_In _ _ Ho)) as [Hx Hy].
    rewrite viewport_jitter_frame, at_translate by assumption.
    rewrite at_interp_bounds by assumption. simpl Nat.add.
    destruct (k <? 2)%nat; [rewrite Hx|rewrite Hy]; ring.
Qed.

Lemma between_ends (a b e : Q) :
  0 <= e -> e <= 1 -> Qmin a b <= a + (b - a) * e /\ a + (b - a) * e <= Qmax a b.
Proof.
  intros H0 H1. destruct (Qlt_le_dec b a) as [Hba|Hab].
  - rewrite Q.min_r, Q.max_l by lra.
    assert (P : 0 <= (a - b) * e) by (apply Qmult_le_0_compat; lra).
    assert (P' : 0 <= (a - b) * (1 - e)) by (apply Qmult_le_0_compat; lra).
    split; lra.
  - rewrite Q.min_l, Q.max_r by lra.
    assert (P : 0 <= (b - a) * e) by (apply Qmult_le_0_compat; lra).
    assert (P' : 0 <= (b - a) * (1 - e)) by (apply Qmult_le_0_compat; lra).
    split; lra.
Qed.

Lemma Qabs_pos_of_nonzero (x : Q) : ~ x == 0 -> 0 < Qabs x.
Proof.
  intros H. destruct (Qlt_le_dec x 0) as [Hx|Hx].
  - rewrite Qabs_neg by lra. lra.
  - rewrite Qabs_pos by lra. destruct (Qlt_le_dec 0 x) as [P|P]; [exact P|].
    exfalso. apply H. lra.
Qed.

(** The distance left to the end viewport at progress [e]. *)
Lemma distance_left (a b e : Q) :
  e <= 1 -> Qabs (b - (a + (b - a) * e)) == Qabs (b - a) * (1 - e).
Proof.
  intros He. setoid_replace (b - (a + (b - a) * e)) with ((b - a) * (1 - e)) by ring.
  rewrite Qabs_Qmult. rewrite (Qabs_pos (1 - e)) by lra. reflexivity.
Qed.

(** X4: a zoom never overshoots and never turns back.  Every scalar of
    every frame of a zoom loop lies between its start value and its end
    value; from one frame to a later one the distance left to the end
    value does not grow, and it shrinks where start and end differ. *)
Theorem zoom_phase_approaches :
  forall (G : Type) (random : G -> Q * G) (N : nat) (A B : bounds)
         (hl : list string) (text : string) (st : renderer G),
    let fs := new_frames st (zoom_phase random N A B hl text st) in
    (forall i f k,
        nth_error fs i = Some f -> (k < 4)%nat ->
        Qmin (at_ A k) (at_ B k) <= at_ (viewport f) k /\
        at_ (viewport f) k <= Qmax (at_ A k) (at_ B k)) /\
    (forall i j fi fj k,
        (i <= j)%nat -> nth_error fs i = Some fi -> nth_error fs j = Some fj ->
        (k < 4)%nat ->
        Qabs (at_ B k - at_ (viewport fj) k) <= Qabs (at_ B k - at_ (viewport fi) k)) /\
    (forall i j fi fj k,
        (i < j)%nat -> nth_error fs i = Some fi -> nth_error fs j = Some fj ->
        (k < 4)%nat -> ~ at_ A k == at_ B k ->
        Qabs (at_ B k - at_ (viewport fj) k) < Qabs (at_ B k - at_ (viewport fi) k)).
Proof.
  intros G random N A B hl text st fs.
  assert (Prog : forall i f, nth_error fs i = Some f ->
             0 <= Qnat i / Qnat N /\ Qnat i / Qnat N < 1 /\ 0 < Qnat N /\
             forall k, (k < 4)%nat ->
               at_ (viewport f) k
               == at_ A k + (at_ B k - at_ A k) * ease_in_out (Qnat i / Qnat N)).
  { intros i f Hf. destruct (zoom_frame_at random N A B hl text st i f Hf) as [Hi Hat].
    destruct (progress_unit i N Hi) as [P0 P1].
    repeat split; try assumption. apply Qnat_pos. lia. }
  split; [|split].
  - intros i f k Hf Hk. destruct (Prog i f Hf) as (P0 & P1 & _ & Hat).
    destruct (ease_in_out_unit (Qnat i / Qnat N)) as [E0 E1]; [exact P0|lra|].
    rewrite (Hat k Hk). now apply between_ends.
  - intros i j fi fj k Hij Hfi Hfj Hk.
    destruct (Prog i fi Hfi) as (I0 & I1 & HN & Hi).
    destruct (Prog j fj Hfj) as (J0 & J1 & _ & Hj).
    destruct (ease_in_out_unit (Qnat i / Qnat N)) as [_ Ei]; [exact I0|lra|].
    destruct (ease_in_out_unit (Qnat j / Qnat N)) as [_ Ej]; [exact J0|lra|].
    assert (M : ease_in_out (Qnat i / Qnat N) <= ease_in_out (Qnat j / Qnat N)).
    { apply ease_in_out_monotone; [exact I0| |lra].
      apply Qdiv_le_mono; [exact HN|now apply Qnat_le]. }
    rewrite (Hi k Hk), (Hj k Hk), !distance_left by assumption.
    rewrite !(Qmult_comm (Qabs (at_ B k - at_ A k))).
    apply Qmult_le_compat_r; [lra|apply Qabs_nonneg].
  - intros i j fi fj k Hij Hfi Hfj Hk Hne.
    destruct (Prog i fi Hfi) as (I0 & I1 & HN & Hi).
    destruct (Prog j fj Hfj) as (J0 & J1 & _ & Hj).
    destruct (ease_in_out_unit (Qnat i / Qnat N)) as [_ Ei]; [exact I0|lra|].
    destruct (ease_in_out_unit (Qnat j / Qnat N)) as [_ Ej]; [exact J0|lra|].
    assert (M : ease_in_out (Qnat i / Qnat N) < ease_in_out (Qnat j / Qnat N)).
    { apply ease_in_out_strictly_monotone; [exact I0| |lra].
      apply Qmult_lt_compat_r; [now apply Qinv_lt_0_compat|now apply Qnat_lt]. }
    rewrite (Hi k Hk), (Hj k Hk), !distance_left by assumption.
    rewrite !(Qmult_comm (Qabs (at_ B k - at_ A k))).
    apply Qmult_lt_compat_r; [|lra].
    apply Qabs_pos_of_nonzero. intros C. apply Hne. lra.
Qed.

(** X4 on the script's first zoom, from the world view to the sample
    region A: frame 10 is at least as close to the region as frame 3. *)
Lemma zoom_phase_approaches_witness :
  exists f3 f10,
    nth_error (new_frames (fresh 3%nat)
                 (zoom_phase toy_random ZOOM_FRAMES WORLD_BOUNDS region_A [] "Scanning: A"
                    (fresh 3%nat))) 3 = Some f3 /\
    nth_error (new_frames (fresh 3%nat)
                 (zoom_phase toy_random ZOOM_FRAMES WORLD_BOUNDS region_A [] "Scanning: A"
                    (fresh 3%nat))) 10 = Some f10 /\
    Qabs (at_ region_A 0 - at_ (viewport f10) 0)
    <= Qabs (at_ region_A 0 - at_ (viewport f3) 0).
Proof.
  eexists. eexists. split; [vm_compute; reflexivity|]. split; [vm_compute; reflexivity|].
  apply (proj1 (proj2 (zoom_phase_approaches nat toy_random ZOOM_FRAMES WORLD_BOUNDS
                         region_A [] "Scanning: A"%string
                         (fresh 3%nat))) 3%nat 10%nat _ _ 0%nat);
    [lia|vm_compute; reflexivity|vm_compute; reflexivity|lia].
Defined.

(** ** The shape of the viewport *)

Lemma hold_phase_frames {G : Type} (random : G -> Q * G) (M : nat) (C : bounds)
      (hl : list string) (text : string) (s : Q) (st : renderer G) :
  new_frames st (hold_phase random M C hl text s st)
  = loop_frames (fun _ => C) hl text (frame_count st) 0 (shake_offsets random M s (gen st)).
Proof. apply new_frames_app. now rewrite hold_phase_eq. Qed.

Lemma translate_size (c : bounds) (dx dy : Q) :
  width (translate c dx dy) == width c /\ height (translate c dx dy) == height c.
Proof. unfold width, height, translate, at_; simpl. split; ring. Qed.

Lemma hold_frames_size {G : Type} (random : G -> Q * G) (M : nat) (C : bounds)
      (hl : list string) (text : string) (s : Q) (st : renderer G) :
  Forall (fun f => width (viewport f) == width C /\ height (viewport f) == height C)
         (new_frames st (hold_phase random M C hl text s st)).
Proof.
  rewrite hold_phase_frames. apply Forall_forall. intros f Hf.
  apply In_nth_error in Hf. destruct Hf as [i Hf].
  destruct (loop_frames_nth _ _ _ _ _ _ _ _ Hf) as (o & _ & ->).
  rewrite viewport_jitter_frame. apply translate_size.
Qed.

(** X5: the shake moves the viewport without resizing it: every frame of a
    hold loop, whatever the intensity and the draws, has the width and the
    height of the held viewport.  In a zoom loop width and height are
    themselves interpolated with the eased progress, so a zoom between two
    viewports of one ratio [r] keeps that ratio in every frame.  Hence
    every frame held on the region of a found name, with positive padded
    size, has width [9/16] of its height. *)
Theorem viewport_shape_kept :
  forall (G : Type) (random : G -> Q * G) (hl : list string) (text : string)
         (st : renderer G),
    (forall M C s,
        Forall (fun f => width (viewport f) == width C /\ height (viewport f) == height C)
               (new_frames st (hold_phase random M C hl text s st))) /\
    (forall N A B i f,
        nth_error (new_frames st (zoom_phase random N A B hl text st)) i = Some f ->
        width (viewport f)
        == width A + (width B - width A) * ease_in_out (Qnat i / Qnat N) /\
        height (viewport f)
        == height A + (height B - height A) * ease_in_out (Qnat i / Qnat N)) /\
    (forall N A B r,
        width A == r * height A -> width B == r * height B ->
        Forall (fun f => width (viewport f) == r * height (viewport f))
               (new_frames st (zoom_phase random N A B hl text st))) /\
    (forall M s gdf country_name pad minx miny maxx maxy,
        country_name <> "World"%string ->
        total_bounds (select_name gdf country_name)
        = Ok (Fin minx, Fin miny, Fin maxx, Fin maxy) ->
        0 < (maxx - minx) + pad -> 0 < (maxy - miny) + pad ->
        exists region,
          get_target_bounds gdf country_name pad = floats region /\
          Forall (fun f => width (viewport f) == target_ratio * height (viewport f))
                 (new_frames st (hold_phase random M region hl text s st))).
Proof.
  intros G random hl text st.
  assert (Zoom : forall N A B i f,
             nth_error (new_frames st (zoom_phase random N A B hl text st)) i = Some f ->
             width (viewport f)
             == width A + (width B - width A) * ease_in_out (Qnat i / Qnat N) /\
             height (viewport f)
             == height A + (height B - height A) * ease_in_out (Qnat i / Qnat N)).
  { intros N A B i f Hf. destruct (zoom_frame_at random N A B hl text st i f Hf) as [_ Hat].
    unfold width, height.
    rewrite (Hat 0%nat), (Hat 1%nat), (Hat 2%nat), (Hat 3%nat) by lia. split; ring. }
  split; [intros M C s; apply hold_frames_size|]. split; [exact Zoom|]. split.
  - intros N A B r HA HB. apply Forall_forall. intros f Hf.
    apply In_nth_error in Hf. destruct Hf as [i Hf].
    destruct (Zoom N A B i f Hf) as [Hw Hh]. rewrite Hw, Hh, HA, HB. ring.
  - intros M s gdf country_name pad minx miny maxx maxy Hn Hb Hw Hh.
    eexists. split; [exact (get_target_bounds_found gdf country_name pad _ _ _ _ Hn Hb)|].
    pose proof (hold_frames_size random M
                  (box ((minx + maxx) / 2) ((miny + maxy) / 2)
                       (force_ratio (padded_size minx miny maxx maxy pad)))
                  hl text s st) as HF.
    rewrite Forall_forall in HF. apply Forall_forall. intros f Hf.
    destruct (HF f Hf) as [Ew Eh]. rewrite Ew, Eh.
    unfold padded_size.
    destruct (force_ratio_spec _ _ Hw Hh) as (Hr & _).
    destruct (force_ratio (maxx - minx + pad, maxy - miny + pad)) as [w' h'].
    simpl in Hr.
    destruct (box_geometry ((minx + maxx) / 2) ((miny + maxy) / 2) w' h') as (Gw & Gh & _).
    rewrite Gw, Gh, Hr. ring.
Qed.

(** X5 on the script's hold on the sample region A. *)
Lemma viewport_shape_kept_witness :
  exists region,
    get_target_bounds toy_world "A" default_pad = floats region /\
    Forall (fun f => width (viewport f) == target_ratio * height (viewport f))
           (new_frames (fresh 3%nat)
              (hold_phase toy_random HOLD_FRAMES region
                          ["A"%string] "TARGET LOCKED: A" 0.8 (fresh 3%nat))).
Proof.
  refine (proj2 (proj2 (proj2 (viewport_shape_kept nat toy_random ["A"%string]
                                 "TARGET LOCKED: A"%string (fresh 3%nat))))
                HOLD_FRAMES 0.8 toy_world "A"%string default_pad 0 (-3) 12 10 _ _ _ _).
  - discriminate.
  - reflexivity.
  - reflexivity.
  - reflexivity.
Defined.

(** ** Map preparation *)

Lemma get_target_bounds_by_box (g g' : GeoDataFrame) (country_name : string) (pad : Q) :
  total_bounds (select_name g country_name) = total_bounds (select_name g' country_name) ->
  get_target_bounds g country_name pad = get_target_bounds g' country_name pad.
Proof. intros H. unfold get_target_bounds. now rewrite H. Qed.

Lemma select_name_app (g1 g2 : GeoDataFrame) (c : string) :
  select_name (g1 ++ g2) c = select_name g1 c ++ select_name g2 c.
Proof. apply filter_app. Qed.

Lemma select_drop_other (g : GeoDataFrame) (n c : string) :
  c <> n -> select_name (drop_name g n) c = select_name g c.
Proof.
  intros Hc. unfold select_name, drop_name. induction g as [|r g IH]; [reflexivity|].
  simpl. destruct (String.eqb_spec (name r) n) as [En|En]; simpl.
  - destruct (String.eqb_spec (name r) c) as [Ec|Ec]; [congruence|exact IH].
  - destruct (String.eqb (name r) c); now rewrite IH.
Qed.

Lemma select_drop_same (g : GeoDataFrame) (n : string) : select_name (drop_name g n) n = [].
Proof.
  unfold select_name, drop_name. induction g as [|r g IH]; [reflexivity|].
  simpl. destruct (String.eqb (name r) n) eqn:E; simpl; [exact IH|]. now rewrite E.
Qed.

Lemma select_rename_same (n : string) (g : GeoDataFrame) :
  select_name (rename_all n g) n = rename_all n g.
Proof.
  unfold select_name, rename_all. induction g as [|r g IH]; [reflexivity|].
  simpl. now rewrite String.eqb_refl, IH.
Qed.

Lemma select_dissolve_other (rows : GeoDataFrame) (c : string) :
  c <> "India"%string -> select_name (dissolve_india rows) c = [].
Proof.
  intros Hc. unfold dissolve_india.
  destruct (rename_all "India" rows) as [|r rs]; [reflexivity|].
  destruct (union_box r rs) as [[[minx miny] maxx] maxy].
  unfold select_name. cbn [filter name].
  destruct (String.eqb_spec "India" c) as [E|_]; [congruence|reflexivity].
Qed.

Lemma total_bounds_dissolve (rows : GeoDataFrame) :
  rows <> [] ->
  total_bounds (select_name (dissolve_india rows) "India")
  = total_bounds (rename_all "India" rows).
Proof.
  intros Hne. unfold dissolve_india.
  destruct (rename_all "India" rows) as [|r rs] eqn:E.
  - destruct rows; [contradiction|discriminate E].
  - unfold total_bounds at 2.
    destruct (union_box r rs) as [[[minx miny] maxx] maxy].
    unfold select_name. cbn [filter name]. rewrite String.eqb_refl. reflexivity.
Qed.

(** X6: what the map preparation does to the lookups.  Antarctica is no
    longer found: its lookup gives four NaN.  Every name other than
    Antarctica and India is looked up as on the downloaded map.  When the
    India file was merged and has rows, India is looked up from the rows
    of that file alone, whatever the downloaded map held for India; when
    the file was not there, or reading it failed, India is looked up as on
    the downloaded map; when the map's India was dropped and putting the
    file's row in its place failed, India is no longer found either. *)
Theorem prepare_world_lookups :
  forall (world : GeoDataFrame) (merge : india_merge) (pad : Q),
    get_target_bounds (prepare_world world merge) "Antarctica" pad = nan_view /\
    (forall country_name,
        country_name <> "Antarctica"%string -> country_name <> "India"%string ->
        get_target_bounds (prepare_world world merge) country_name pad
        = get_target_bounds world country_name pad) /\
    (forall rows,
        merge = Merged rows -> rows <> [] ->
        get_target_bounds (prepare_world world merge) "India" pad
        = get_target_bounds (rename_all "India" rows) "India" pad) /\
    (merge = NotMerged ->
     get_target_bounds (prepare_world world merge) "India" pad
     = get_target_bounds world "India" pad) /\
    (merge = ConcatFailed ->
     get_target_bounds (prepare_world world merge) "India" pad = nan_view).
Proof.
  intros world merge pad. split; [|split; [|split; [|split]]].
  - assert (E : select_name (prepare_world world merge) "Antarctica" = []).
    { unfold prepare_world. destruct merge as [| |rows].
      - apply select_drop_same.
      - rewrite select_drop_other by discriminate. apply select_drop_same.
      - unfold merge_india. rewrite select_name_app, select_drop_other by discriminate.
        rewrite select_drop_same, select_dissolve_other by discriminate. reflexivity. }
    unfold get_target_bounds. rewrite E. reflexivity.
  - intros c Ha Hi. apply get_target_bounds_by_box. f_equal.
    unfold prepare_world. destruct merge as [| |rows].
    + now apply select_drop_other.
    + now rewrite !select_drop_other by assumption.
    + unfold merge_india. rewrite select_name_app, select_dissolve_other by assumption.
      rewrite app_nil_r, !select_drop_other by assumption. reflexivity.
  - intros rows -> Hne. apply get_target_bounds_by_box.
    unfold prepare_world, merge_india.
    rewrite select_name_app, select_drop_same. simpl app.
    rewrite total_bounds_dissolve by assumption. now rewrite select_rename_same.
  - intros ->. apply get_target_bounds_by_box. f_equal.
    unfold prepare_world. apply select_drop_other. discriminate.
  - intros ->. unfold prepare_world, get_target_bounds.
    rewrite select_drop_same. reflexivity.
Qed.

(** X6 on the sample source with an India file of two states. *)
Lemma prepare_world_lookups_witness :
  get_target_bounds
    (prepare_world (mkRow "India" 70 8 90 30 :: toy_world)
                   (Merged [mkRow "Kerala" 74 8 78 13; mkRow "Punjab" 73 29 77 33]))
    "India" default_pad
  = get_target_bounds
      (rename_all "India" [mkRow "Kerala" 74 8 78 13; mkRow "Punjab" 73 29 77 33])
      "India" default_pad.
Proof.
  apply (proj1 (proj2 (proj2 (prepare_world_lookups
                                (mkRow "India" 70 8 90 30 :: toy_world)
                                (Merged [mkRow "Kerala" 74 8 78 13; mkRow "Punjab" 73 29 77 33])
                                default_pad)))
               [mkRow "Kerala" 74 8 78 13; mkRow "Punjab" 73 29 77 33]).
  - reflexivity.
  - discriminate.
Defined.

(** ** Draws and counters *)

(** X7: when every target is found, the animation completes and has drawn
    from the generator exactly twice per frame, un-shaken frames included,
    so the state it leaves the generator in depends only on the frame
    counts and the number of targets, not on the map or the names; it has
    advanced the frame counter by the number of frames, and it has left
    the images saved before it in place. *)
Theorem animation_sequence_draws :
  forall (G : Type) (random : G -> Q * G) (intro zoom hold outro : nat) (shake : Q)
         (world : GeoDataFrame) (countries : list string)
         (targets : list (string * bounds)) (st : renderer G),
    resolve world countries = Some targets ->
    exists st',
      animation_sequence random intro zoom hold outro shake world countries st
      = Completed st' /\
      let n := total_frames intro zoom hold outro (List.length countries) in
      gen st' = after_draws random (2 * n) (gen st) /\
      frame_count st' = (frame_count st + n)%nat /\
      firstn (List.length (written st)) (written st') = written st /\
      List.length (new_frames st st') = n.
Proof.
  intros G random intro zoom hold outro shake world countries targets st Hres.
  destruct (animation_sequence_extends G random (fun _ _ => True) zoom hold shake world
              (fun _ => I) (fun _ => I) intro outro countries targets st Hres)
    as (st' & E & (fs & Hw & Hp & Hc) & Hg).
  exists st'. split; [exact E|]. cbn zeta.
  rewrite timeline_length, (resolve_length _ _ _ Hres) in Hc.
  assert (Hl : List.length fs
               = total_frames intro zoom hold outro (List.length countries)).
  { rewrite (plays_length _ _ _ _ Hp), timeline_length, (resolve_length _ _ _ Hres).
    reflexivity. }
  split; [exact Hg|]. split; [exact Hc|]. split.
  - rewrite Hw, firstn_app, firstn_all, Nat.sub_diag. simpl. apply app_nil_r.
  - now rewrite (new_frames_app _ _ _ Hw).
Qed.

(** X7 on the script's run over the sample atlas: 465 frames, 930 draws. *)
Lemma animation_sequence_draws_witness :
  exists st',
    create_video toy_random atlas 3%nat = Completed st' /\
    gen st' = after_draws toy_random 930 3%nat /\
    frame_count st' = 465%nat.
Proof.
  assert (R : exists targets, resolve atlas DATA_COUNTRIES = Some targets)
    by (eexists; vm_compute; reflexivity).
  destruct R as [targets R].
  destruct (animation_sequence_draws nat toy_random 30 ZOOM_FRAMES HOLD_FRAMES 60 0.8
              atlas DATA_COUNTRIES targets (fresh 3%nat) R) as (st' & E & Hg & Hc & _).
  exists st'. split; [exact E|]. split; [exact Hg|exact Hc].
Defined.

(** ** Highlights *)

Lemma prefix_of_refl (l : list string) : prefix_of l l.
Proof. exists []. now rewrite app_nil_r. Qed.

Lemma prefix_of_trans (l1 l2 l3 : list string) :
  prefix_of l1 l2 -> prefix_of l2 l3 -> prefix_of l1 l3.
Proof. intros [r1 ->] [r2 ->]. exists (r1 ++ r2). now rewrite app_assoc. Qed.

Lemma prefix_of_app (l r : list string) : prefix_of l (l ++ r).
Proof. now exists r. Qed.

Lemma StronglySorted_app {A : Type} (R : A -> A -> Prop) (l1 l2 : list A) :
  StronglySorted R l1 -> StronglySorted R l2 ->
  (forall x y, In x l1 -> In y l2 -> R x y) ->
  StronglySorted R (l1 ++ l2).
Proof.
  intros H1 H2 H. induction H1 as [|x l1 Hs IH Hx]; simpl; [exact H2|].
  constructor.
  - apply IH. intros a b Ha Hb. apply H; [now right|exact Hb].
  - apply Forall_app. split; [exact Hx|].
    apply Forall_forall. intros y Hy. apply H; [now left|exact Hy].
Qed.

Lemma StronglySorted_initial {A : Type} (R : A -> A -> Prop) (l1 l2 : list A) :
  StronglySorted R (l1 ++ l2) -> StronglySorted R l1.
Proof.
  induction l1 as [|x l1 IH]; simpl; intros H; [constructor|].
  inversion H as [|? ? Hs Hx]; subst. constructor; [now apply IH|].
  apply Forall_app in Hx. apply Hx.
Qed.

Lemma StronglySorted_repeat {A : Type} (R : A -> A -> Prop) (x : A) (n : nat) :
  R x x -> StronglySorted R (repeat x n).
Proof.
  intros Hx. induction n as [|n IH]; simpl; constructor; [exact IH|].
  apply Forall_forall. intros y Hy. apply repeat_spec in Hy. now subst y.
Qed.

(** The highlight lists of the country loop grow from [hl] to [hl]
    followed by all the names. *)
Lemma shown_script_grows (z h : nat) (countries : list string) :
  forall hl : list string,
    StronglySorted prefix_of (shown_script z h hl countries) /\
    Forall (fun l => prefix_of hl l /\ prefix_of l (hl ++ countries))
           (shown_script z h hl countries).
Proof.
  induction countries as [|c cs IH]; intros hl.
  - simpl. split; constructor.
  - simpl shown_script. destruct (IH (hl ++ [c])) as [IS IF].
    rewrite Forall_forall in IF.
    assert (P1 : prefix_of hl (hl ++ [c])) by apply prefix_of_app.
    assert (P2 : prefix_of (hl ++ [c]) (hl ++ c :: cs)).
    { exists cs. now rewrite <- app_assoc. }
    split.
    + apply StronglySorted_app.
      * apply StronglySorted_repeat, prefix_of_refl.
      * apply StronglySorted_app; [apply StronglySorted_repeat, prefix_of_refl|exact IS|].
        intros x y Hx Hy. apply repeat_spec in Hx. subst x. now apply IF.
      * intros x y Hx Hy. apply repeat_spec in Hx. subst x.
        apply in_app_or in Hy. destruct Hy as [Hy|Hy].
        -- apply repeat_spec in Hy. now subst y.
        -- apply prefix_of_trans with (hl ++ [c]); [exact P1|now apply IF].
    + rewrite !Forall_app. repeat split.
      * apply Forall_forall. intros x Hx. apply repeat_spec in Hx. subst x.
        split; [apply prefix_of_refl|apply prefix_of_app].
      * apply Forall_forall. intros x Hx. apply repeat_spec in Hx. subst x.
        split; [exact P1|exact P2].
      * apply Forall_forall. intros x Hx. destruct (IF x Hx) as [Q1 Q2]. split.
        -- now apply prefix_of_trans with (hl ++ [c]).
        -- now rewrite <- app_assoc in Q2.
Qed.

Lemma shown_script_length (z h : nat) (countries : list string) :
  forall hl, List.length (shown_script z h hl countries)
             = (List.length countries * (z + h))%nat.
Proof.
  induction countries as [|c cs IH]; intros hl; [reflexivity|].
  simpl shown_script. rewrite !length_app, !repeat_length, IH. simpl List.length. lia.
Qed.

(** *** The highlights of a run, completed or not *)

Section Highlights.

Variable G : Type.
Variable random : G -> Q * G.

Lemma saved_final (o : outcome G (renderer G)) : saved o = final (fun s => s) o.
Proof. destruct o; reflexivity. Qed.

Lemma trace_render (v : view) (hl : list string) (text : string) (s : Q) (st : renderer G) :
  shown_trace (fun s' => s') st (try_render_frame random v hl text s st) [hl].
Proof.
  unfold shown_trace, try_render_frame.
  destruct (uniform random (- s) s (gen st)) as [sx g1].
  destruct (uniform random (- s) s g1) as [sy g2].
  destruct (set_lim _ _) as [xl|]; [destruct (set_lim _ _) as [yl|]|].
  - eexists [_]. simpl. split; [reflexivity|]. split; [now exists []|reflexivity].
  - exists []. simpl. split; [now rewrite app_nil_r|].
    split; [now exists [hl]|discriminate].
  - exists []. simpl. split; [now rewrite app_nil_r|].
    split; [now exists [hl]|discriminate].
Qed.

Lemma trace_and_then {S T : Type} (get1 : S -> renderer G) (get2 : T -> renderer G)
      (st : renderer G) (o : outcome G S) (k : S -> outcome G T)
      (l1 l2 : list (list string)) :
  shown_trace get1 st o l1 ->
  (forall s, o = Completed s -> shown_trace get2 (get1 s) (k s) l2) ->
  shown_trace get2 st (and_then o k) (l1 ++ l2).
Proof.
  intros (fs1 & W1 & [r1 P1] & C1) H. destruct o as [s|st1]; simpl in *.
  - destruct (H s eq_refl) as (fs2 & W2 & [r2 P2] & C2).
    exists (fs1 ++ fs2). split; [|split].
    + now rewrite W2, W1, app_assoc.
    + exists r2. rewrite map_app, (C1 s eq_refl), P2. now rewrite app_assoc.
    + intros t E. rewrite map_app, (C1 s eq_refl), (C2 t E). reflexivity.
  - exists fs1. split; [exact W1|]. split; [|discriminate].
    exists (r1 ++ l2). rewrite P1. now rewrite app_assoc.
Qed.

Lemma trace_completed {S : Type} (get : S -> renderer G) (s : S) :
  shown_trace get (get s) (Completed s) [].
Proof.
  exists []. simpl. split; [now rewrite app_nil_r|]. split; [now exists []|reflexivity].
Qed.

Lemma trace_loop (view_at : nat -> view) (hl : list string) (text : string) (s : Q)
      (l : list nat) :
  forall st,
    shown_trace (fun s' => s') st
      (try_fold (fun acc i => try_render_frame random (view_at i) hl text s acc) l st)
      (repeat hl (List.length l)).
Proof.
  induction l as [|i l IH]; intros st.
  - apply (trace_completed (fun s' => s') st).
  - simpl try_fold. change (repeat hl (List.length (i :: l)))
      with ([hl] ++ repeat hl (List.length l)).
    apply (trace_and_then (fun s' => s') (fun s' => s')); [apply trace_render|].
    intros st1 _. apply IH.
Qed.

Lemma trace_hold (m : nat) (v : view) (hl : list string) (text : string) (s : Q)
      (st : renderer G) :
  shown_trace (fun s' => s') st (try_hold_phase random m v hl text s st) (repeat hl m).
Proof.
  pose proof (trace_loop (fun _ => v) hl text s (seq 0 m) st) as H.
  rewrite length_seq in H. exact H.
Qed.

Lemma trace_zoom (n : nat) (a b : view) (hl : list string) (text : string)
      (st : renderer G) :
  shown_trace (fun s' => s') st (try_zoom_phase random n a b hl text st) (repeat hl n).
Proof.
  pose proof (trace_loop (fun i => interp_view a b (ease_in_out (Qnat i / Qnat n)))
                         hl text 0 (seq 0 n) st) as H.
  rewrite length_seq in H. exact H.
Qed.

Variables zoom hold : nat.
Variable shake : Q.
Variable world : GeoDataFrame.

Lemma country_step_highlights (cam cam' : camera G) (c : string) :
  country_step random zoom hold shake world cam c = Completed cam' ->
  current_highlights cam' = current_highlights cam ++ [c].
Proof.
  unfold country_step. destruct (try_zoom_phase _ _ _ _ _ _ _) as [st1|]; simpl;
    [|discriminate].
  destruct (try_hold_phase _ _ _ _ _ _ _) as [st2|]; simpl; [|discriminate].
  intros E. injection E as <-. reflexivity.
Qed.

Lemma country_loop_highlights (countries : list string) :
  forall cam cam',
    try_fold (country_step random zoom hold shake world) countries cam = Completed cam' ->
    current_highlights cam' = current_highlights cam ++ countries.
Proof.
  induction countries as [|c cs IH]; intros cam cam'; simpl.
  - intros E. injection E as <-. now rewrite app_nil_r.
  - destruct (country_step random zoom hold shake world cam c) as [cam1|] eqn:E1; simpl;
      [|discriminate].
    intros E. rewrite (IH _ _ E), (country_step_highlights _ _ _ E1).
    now rewrite <- app_assoc.
Qed.

Lemma trace_country_step (cam : camera G) (c : string) :
  shown_trace (@out G) (out cam) (country_step random zoom hold shake world cam c)
    (repeat (current_highlights cam) zoom ++ repeat (current_highlights cam ++ [c]) hold).
Proof.
  unfold country_step.
  apply (trace_and_then (fun s' => s') (@out G)); [apply trace_zoom|].
  intros st1 _.
  rewrite <- (app_nil_r (repeat (current_highlights cam ++ [c]) hold)).
  apply (trace_and_then (fun s' => s') (@out G)); [apply trace_hold|].
  intros st2 _.
  apply (trace_completed (@out G)
           (mkCamera (get_target_bounds world c default_pad)
                     (current_highlights cam ++ [c]) st2)).
Qed.

Lemma trace_country_loop (countries : list string) :
  forall cam,
    shown_trace (@out G) (out cam)
      (try_fold (country_step random zoom hold shake world) countries cam)
      (shown_script zoom hold (current_highlights cam) countries).
Proof.
  induction countries as [|c cs IH]; intros cam.
  - apply (trace_completed (@out G) cam).
  - simpl try_fold. simpl shown_script. rewrite app_assoc.
    apply (trace_and_then (@out G) (@out G)); [apply trace_country_step|].
    intros cam1 E1. rewrite <- (country_step_highlights _ _ _ E1). apply IH.
Qed.

Lemma trace_animation (intro outro : nat) (countries : list string) (st : renderer G) :
  shown_trace (fun s' => s') st
    (animation_sequence random intro zoom hold outro shake world countries st)
    (repeat [] intro
     ++ shown_script zoom hold [] countries
     ++ repeat countries zoom ++ repeat countries outro).
Proof.
  unfold animation_sequence.
  apply (trace_and_then (fun s' => s') (fun s' => s')); [apply trace_hold|].
  intros st1 _.
  apply (trace_and_then (@out G) (fun s' => s'));
    [apply (trace_country_loop countries (mkCamera (floats WORLD_BOUNDS) [] st1))|].
  intros cam2 E2. apply country_loop_highlights in E2. simpl in E2. rewrite E2.
  apply (trace_and_then (fun s' => s') (fun s' => s')); [apply trace_zoom|].
  intros st3 _. apply trace_hold.
Qed.

End Highlights.

(** X8: highlights only accumulate, in input order, whether the run
    completes or is ended by an error.  Along the images a run saves, the
    highlight list of an image is an initial segment of the highlight list
    of every later image, every highlight list is an initial segment of
    the country list, and once the country loop is over every image
    highlights the whole list. *)
Theorem highlights_accumulate :
  forall (G : Type) (random : G -> Q * G) (intro zoom hold outro : nat) (shake : Q)
         (world : GeoDataFrame) (countries : list string) (st : renderer G),
    let fs := new_frames st (saved (animation_sequence random intro zoom hold outro shake
                                                        world countries st)) in
    StronglySorted prefix_of (map shown fs) /\
    Forall (fun f => prefix_of (shown f) countries) fs /\
    (forall j f,
        (intro + List.length countries * (zoom + hold) <= j)%nat ->
        nth_error fs j = Some f -> shown f = countries).
Proof.
  intros G random intro zoom hold outro shake world countries st fs.
  destruct (trace_animation G random zoom hold shake world intro outro countries st)
    as (fs' & Hw & [rest Hs] & _).
  rewrite <- saved_final in Hw.
  assert (E : fs = fs') by (subst fs; now apply new_frames_app). rewrite E. clear E fs Hw.
  destruct (shown_script_grows zoom hold countries []) as [TS TF].
  simpl app in TF. rewrite Forall_forall in TF.
  split; [|split].
  - apply (StronglySorted_initial _ _ rest). rewrite <- Hs.
    apply StronglySorted_app.
    + apply StronglySorted_repeat, prefix_of_refl.
    + apply StronglySorted_app; [exact TS| |].
      * apply StronglySorted_app; try (apply StronglySorted_repeat, prefix_of_refl).
        intros x y Hx Hy. apply repeat_spec in Hx, Hy. subst. apply prefix_of_refl.
      * intros x y Hx Hy.
        assert (y = countries).
        { apply in_app_or in Hy. destruct Hy as [Hy|Hy]; now apply repeat_spec in Hy. }
        subst y. now apply TF.
    + intros x y Hx _. apply repeat_spec in Hx. subst x. now exists y.
  - assert (HF : Forall (fun l => prefix_of l countries) (map shown fs' ++ rest)).
    { rewrite <- Hs, !Forall_app. repeat split.
      - apply Forall_forall. intros x Hx. apply repeat_spec in Hx. subst x. now exists countries.
      - apply Forall_forall. intros x Hx. now apply TF.
      - apply Forall_forall. intros x Hx. apply repeat_spec in Hx. subst x.
        apply prefix_of_refl.
      - apply Forall_forall. intros x Hx. apply repeat_spec in Hx. subst x.
        apply prefix_of_refl. }
    apply Forall_app in HF. destruct HF as [HF _]. rewrite Forall_map in HF. exact HF.
  - intros j f Hj Hf.
    assert (Hm : nth_error (map shown fs' ++ rest) j = Some (shown f)).
    { rewrite nth_error_app1.
      - now apply map_nth_error.
      - rewrite length_map. apply nth_error_Some. now rewrite Hf. }
    rewrite <- Hs, app_assoc in Hm.
    rewrite nth_error_app2 in Hm.
    + apply nth_error_In in Hm. apply in_app_or in Hm.
      destruct Hm as [Hm|Hm]; now apply repeat_spec in Hm.
    + rewrite length_app, repeat_length, shown_script_length. exact Hj.
Qed.

(** ** The slide show of [main.py] *)

Lemma main_reveal_frame_at (done rest : list string) (c : string) :
  Main.reveal_frame (done ++ c :: rest) (List.length done)
  = Main.mkFrame (S (List.length done)) (done ++ [c]) ("Target Acquired: " ++ c)%string
                 [-180; 180] [-60; 90].
Proof.
  unfold Main.reveal_frame. f_equal.
  - rewrite firstn_app, firstn_all2 by lia.
    replace (S (List.length done) - List.length done)%nat with 1%nat by lia. reflexivity.
  - rewrite app_nth2, Nat.sub_diag by lia. reflexivity.
Qed.

(** The reveal loop, from any point of the list. *)
Lemma main_reveal_loop (rest done : list string) (saved : list Main.frame) :
  fold_left Main.reveal
            (combine (seq (S (List.length done)) (List.length rest)) rest) (done, saved)
  = (done ++ rest,
     saved ++ map (Main.reveal_frame (done ++ rest))
                  (seq (List.length done) (List.length rest))).
Proof.
  revert done saved. induction rest as [|c rest IH]; intros done saved.
  - simpl. now rewrite !app_nil_r.
  - simpl List.length. simpl seq. simpl combine. simpl fold_left.
    unfold Main.reveal at 2. simpl fst. simpl snd. unfold Main.save_frame.
    pose proof (IH (done ++ [c])) as IH'. rewrite length_app in IH'.
    simpl List.length in IH'. rewrite Nat.add_1_r in IH'. rewrite IH'.
    rewrite <- !app_assoc. simpl app. rewrite main_reveal_frame_at. reflexivity.
Qed.

(** X9: for a list of [K] countries the slide show saves exactly [K + 2]
    images, numbered 0 to [K + 1] in order, so no image file is written
    twice: image 0 highlights nothing, image [i] (for [1 <= i <= K])
    highlights exactly the first [i] countries and is captioned with the
    [i]-th, and image [K + 1] highlights all of them. *)
Theorem main_generate_sequence_frames :
  forall countries : list string,
    let K := List.length countries in
    Main.generate_sequence countries
    = Main.mkFrame 0 [] "Declassifying files..." [-180; 180] [-60; 90]
      :: map (Main.reveal_frame countries) (seq 0 K)
      ++ [Main.mkFrame (K + 1) countries "The Truth is Out There..." [-180; 180] [-60; 90]] /\
    List.length (Main.generate_sequence countries) = (K + 2)%nat /\
    map Main.frame_index (Main.generate_sequence countries) = seq 0 (K + 2) /\
    NoDup (map Main.frame_index (Main.generate_sequence countries)).
Proof.
  intros countries K.
  assert (E : Main.generate_sequence countries
              = Main.mkFrame 0 [] "Declassifying files..." [-180; 180] [-60; 90]
                :: map (Main.reveal_frame countries) (seq 0 K)
                ++ [Main.mkFrame (K + 1) countries "The Truth is Out There..."
                                 [-180; 180] [-60; 90]]).
  { unfold Main.generate_sequence. cbn zeta.
    pose proof (main_reveal_loop countries []
                  (Main.save_frame [] 0 "Declassifying files..." [])) as L.
    change (List.length (@nil string)) with 0%nat in L. simpl app in L. rewrite L.
    simpl fst. simpl snd. unfold Main.save_frame. simpl app. reflexivity. }
  assert (I : map Main.frame_index (Main.generate_sequence countries) = seq 0 (K + 2)).
  { rewrite E. simpl map. rewrite map_app, map_map. simpl map.
    change (fun x : nat => S x) with S. rewrite seq_shift.
    replace (K + 2)%nat with (1 + (K + 1))%nat by lia.
    rewrite (seq_app 1 (K + 1) 0), (seq_app K 1 (0 + 1)). simpl.
    now rewrite Nat.add_1_r. }
  split; [exact E|]. split; [|split; [exact I|]].
  - rewrite <- (length_map Main.frame_index), I. apply length_seq.
  - rewrite I. apply seq_NoDup.
Qed.

(** ** A target that no row carries *)

(** X10: a target that no row carries ends the run.  When the targets
    before it are all found, the zoom has at least one frame and the
    target is not 'World', the run raises at the first zoom frame towards
    it, whatever comes after it in the list: the images saved by then are
    the intro and the zoom and hold frames of the targets before it, the
    frame counter counts exactly those, the generator has been drawn from
    twice for each of them and twice more by the call that raised, and the
    images saved before the run are left in place. *)
Theorem unresolved_target_ends_run :
  forall (G : Type) (random : G -> Q * G) (intro zoom hold outro : nat) (shake : Q)
         (world : GeoDataFrame) (pre : list string) (c : string)
         (targets : list (string * bounds)) (st : renderer G),
    (forall g, 0 <= fst (random g) /\ fst (random g) < 1) ->
    0 <= shake ->
    resolve world pre = Some targets ->
    c <> "World"%string -> ~ In c (map name world) -> (0 < zoom)%nat ->
    exists st',
      (forall post,
          animation_sequence random intro zoom hold outro shake world (pre ++ c :: post) st
          = Raised st') /\
      let n := (intro + List.length pre * (zoom + hold))%nat in
      plays within (frame_count st) (new_frames st st')
            (hold_cues intro WORLD_BOUNDS 0 [] "Initiating Scan..."
             ++ target_cues zoom hold shake WORLD_BOUNDS [] targets) /\
      List.length (new_frames st st') = n /\
      frame_count st' = (frame_count st + n)%nat /\
      gen st' = after_draws random (2 * n + 2) (gen st) /\
      firstn (List.length (written st)) (written st') = written st.
Proof.
  intros G random intro zoom hold outro shake world pre c targets st Hr Hs Hres Hn Hm Hz.
  assert (A0 : admits random within 0).
  { intros g. unfold within.
    setoid_replace (- 0 + (0 - - 0) * fst (random g)) with 0 by ring. split; lra. }
  assert (As : admits random within shake).
  { intros g. apply uniform_within; [exact Hs|apply Hr|apply Hr]. }
  destruct (animation_sequence_aborts G random within zoom hold shake world A0 As
              intro outro pre c targets st Hres Hz Hn Hm)
    as (st1 & (fs & Hw & Hp & Hc) & Hg & E).
  eexists. split; [exact E|]. cbn zeta. cbn [gen frame_count written].
  assert (Hl : List.length fs = (intro + List.length pre * (zoom + hold))%nat).
  { rewrite (plays_length _ _ _ _ Hp), length_app, hold_cues_length, target_cues_length.
    now rewrite (resolve_length _ _ _ Hres). }
  assert (Hf : new_frames st (mkRenderer (after_draws random 2 (gen st1)) (frame_count st1)
                                         (written st1)) = fs)
    by (now apply new_frames_app).
  rewrite Hf. split; [exact Hp|]. split; [exact Hl|]. split; [|split].
  - rewrite Hc, length_app, hold_cues_length, target_cues_length.
    now rewrite (resolve_length _ _ _ Hres).
  - rewrite Hg, <- after_draws_add. reflexivity.
  - rewrite Hw, firstn_app, firstn_all, Nat.sub_diag. simpl. apply app_nil_r.
Qed.

(** X10 on the sample source, which has rows named A and none named B:
    with the script's frame counts the run ends after 30 + (25 + 45) = 100
    images. *)
Lemma unresolved_target_ends_run_witness :
  exists st',
    animation_sequence toy_random 30 ZOOM_FRAMES HOLD_FRAMES 60 0.8 toy_world
                       ["A"; "B"; "Russia"]%string (fresh 3%nat)
    = Raised st' /\
    List.length (new_frames (fresh 3%nat) st') = 100%nat /\
    frame_count st' = 100%nat.
Proof.
  assert (Hs : 0 <= 0.8) by discriminate.
  assert (R : exists targets, resolve toy_world ["A"%string] = Some targets)
    by (eexists; vm_compute; reflexivity).
  destruct R as [targets R].
  assert (Hn : "B"%string <> "World"%string) by discriminate.
  assert (Hm : ~ In "B"%string (map name toy_world)).
  { simpl. intros [C|[C|[C|[]]]]; discriminate C. }
  assert (Hz : (0 < ZOOM_FRAMES)%nat) by (unfold ZOOM_FRAMES; lia).
  destruct (unresolved_target_ends_run nat toy_random 30 ZOOM_FRAMES HOLD_FRAMES 60 0.8
              toy_world ["A"%string] "B"%string targets (fresh 3%nat)
              toy_random_unit Hs R Hn Hm Hz) as (st' & E & _ & Hl & Hc & _).
  exists st'. split; [exact (E ["Russia"%string])|]. split; [exact Hl|exact Hc].
Defined.

(** ** The region frames the whole target *)

Lemma union_box_encloses (rs : GeoDataFrame) :
  forall a b c d minx miny maxx maxy,
    fold_left
      (fun acc r' =>
         let '(minx, miny, maxx, maxy) := acc in
         (Qmin minx (geom_minx r'), Qmin miny (geom_miny r'),
          Qmax maxx (geom_maxx r'), Qmax maxy (geom_maxy r')))
      rs (a, b, c, d) = (minx, miny, maxx, maxy) ->
    (minx <= a /\ miny <= b /\ c <= maxx /\ d <= maxy) /\
    (forall r, In r rs ->
               minx <= geom_minx r /\ miny <= geom_miny r /\
               geom_maxx r <= maxx /\ geom_maxy r <= maxy).
Proof.
  induction rs as [|r' rs IH]; intros a b c d minx miny maxx maxy H.
  - simpl in H. injection H as -> -> -> ->.
    split; [repeat split; apply Qle_refl|intros r []].
  - simpl in H. apply IH in H. destruct H as [(H1 & H2 & H3 & H4) HI].
    pose proof (Q.le_min_l a (geom_minx r')). pose proof (Q.le_min_r a (geom_minx r')).
    pose proof (Q.le_min_l b (geom_miny r')). pose proof (Q.le_min_r b (geom_miny r')).
    pose proof (Q.le_max_l c (geom_maxx r')). pose proof (Q.le_max_r c (geom_maxx r')).
    pose proof (Q.le_max_l d (geom_maxy r')). pose proof (Q.le_max_r d (geom_maxy r')).
    split; [repeat split; lra|].
    intros r [<-|Hr]; [repeat split; lra|now apply HI].
Qed.

Lemma total_bounds_encloses (rows : GeoDataFrame) (minx miny maxx maxy : Q) :
  total_bounds rows = Ok (Fin minx, Fin miny, Fin maxx, Fin maxy) ->
  forall r, In r rows ->
            minx <= geom_minx r /\ miny <= geom_miny r /\
            geom_maxx r <= maxx /\ geom_maxy r <= maxy.
Proof.
  intros H. destruct (total_bounds_finite _ _ _ _ _ H) as (r0 & rs & -> & Hu).
  unfold union_box in Hu. apply union_box_encloses in Hu.
  destruct Hu as [(H1 & H2 & H3 & H4) HI].
  intros r [<-|Hr]; [repeat split; assumption|now apply HI].
Qed.

(** X11: the region resolved for a name frames everything that carries the
    name.  On well-formed rows and with a positive padding, the lookup of
    a name other than 'World' that some row carries gives a region of
    finite numbers that contains the box of every row of that name, with
    a margin of at least half the padding on each of the four sides. *)
Theorem get_target_bounds_frames_rows :
  forall (gdf : GeoDataFrame) (country_name : string) (pad : Q) (r : row),
    well_formed gdf -> 0 < pad ->
    country_name <> "World"%string ->
    In r gdf -> name r = country_name ->
    exists region,
      get_target_bounds gdf country_name pad = floats region /\
      contains region
               [geom_minx r - pad / 2; geom_maxx r + pad / 2;
                geom_miny r - pad / 2; geom_maxy r + pad / 2].
Proof.
  intros gdf country_name pad r Hwf Hp Hn Hr Hname.
  assert (Hsel : In r (select_name gdf country_name)).
  { unfold select_name. apply filter_In. split; [exact Hr|]. now apply String.eqb_eq. }
  destruct (select_name gdf country_name) as [|r0 rs] eqn:Es; [contradiction|].
  destruct (total_bounds_cons r0 rs) as (minx & miny & maxx & maxy & _ & E).
  rewrite <- Es in E, Hsel.
  destruct (total_bounds_encloses _ _ _ _ _ E r Hsel) as (E1 & E2 & E3 & E4).
  destruct (total_bounds_ordered _ _ _ _ _ (select_name_well_formed _ _ Hwf) E) as [Hx Hy].
  eexists. split; [exact (get_target_bounds_found gdf country_name pad minx miny maxx maxy Hn E)|].
  unfold padded_size.
  destruct (force_ratio_spec (maxx - minx + pad) (maxy - miny + pad))
    as (_ & Hw' & Hh' & _); [lra|lra|].
  destruct (force_ratio (maxx - minx + pad, maxy - miny + pad)) as [w' h'].
  simpl in Hw', Hh'. unfold contains, box, at_. simpl. rewrite !half_eq.
  repeat split; lra.
Qed.

(** X11 on the second row named A of the sample source. *)
Lemma get_target_bounds_frames_rows_witness :
  exists region,
    get_target_bounds toy_world "A" default_pad = floats region /\
    contains region
             [5 - default_pad / 2; 12 + default_pad / 2;
              -3 - default_pad / 2; 4 + default_pad / 2].
Proof.
  assert (H : well_formed toy_world).
  { unfold well_formed, toy_world. repeat constructor; simpl; discriminate. }
  apply (get_target_bounds_frames_rows toy_world "A" default_pad (mkRow "A" 5 (-3) 12 4) H).
  - reflexivity.
  - discriminate.
  - simpl. right. right. left. reflexivity.
  - reflexivity.
Defined.
